(** * trust-lens-backend: the scoring pipeline of [src/api/analyze.js]

    A shallow embedding of the request handler, its three analyzers and the
    score synthesizer, followed by the properties of the specification that
    were checked against it.

    Conventions of the embedding.
    - An [await]ed call that may reject, and every expression that may raise,
      is a [completion]: [Normal v] or [Throw].  [try { .. } catch { .. }] is
      [try_catch].
    - JavaScript numbers that come from outside (JSON bodies) and the weighted
      sum of the synthesizer are IEEE binary64 values: Rocq's primitive
      [float].  Scores, which the code only ever builds from integer literals,
      [Math.max] and [Math.round], are kept in [Z].  The mean of the authority
      analyzer is the one binary64 operation that is replaced by its exact
      value ([Math_round_div]); [Math_round_quotient] proves the two equal.
    - Strings are [string]; a character stands for one code unit in the
      Latin-1 range.
    - [process.env], the URL parser, DNS and the two HTTP providers are the
      fields of a [World]; every theorem quantifies over all of them. *)

From Stdlib Require Import ZArith Floats Ascii String.
From stdpp Require Import gmap strings list pretty.

Set Warnings "-inexact-float,-register-all".
Open Scope Z_scope.

(** ** Completions *)

Inductive completion (A : Type) : Type :=
| Normal (a : A)
| Throw.
Arguments Normal {A} a.
Arguments Throw {A}.

#[global] Instance completion_ret : MRet completion := @Normal.
#[global] Instance completion_bind : MBind completion :=
  λ A B f m, match m with Normal a => f a | Throw => Throw end.
#[global] Instance completion_fmap : FMap completion :=
  λ A B f m, match m with Normal a => Normal (f a) | Throw => Throw end.

#[global] Instance completion_eq_dec `{EqDecision A} : EqDecision (completion A).
Proof. solve_decision. Defined.

(** [try { body } catch (error) { handler }], for a handler that cannot raise. *)
Definition try_catch {A} (body : completion A) (handler : A) : A :=
  match body with Normal a => a | Throw => handler end.

(** ** JavaScript values *)

Inductive value : Type :=
| VUndefined
| VNull
| VBool (b : bool)
| VNumber (n : float)
| VString (s : string)
| VArray (elems : list value)
| VObject (props : list (string * value)).

(** The own property [k] of an object whose properties were added in the order
    of [props]; a later binding of the same key replaces an earlier one. *)
Fixpoint own_property (k : string) (props : list (string * value)) : option value :=
  match props with
  | [] => None
  | (k', v) :: rest =>
      match own_property k rest with
      | Some v' => Some v'
      | None => if String.eqb k k' then Some v else None
      end
  end.

(** [v.k] for one of the names the handler reads ([choices], [message],
    [content], [search_information], [total_results]): none of them is defined
    on a prototype, so only objects can answer with something else than
    [undefined]; reading a property of [undefined] or [null] raises. *)
Definition Get (v : value) (k : string) : completion value :=
  match v with
  | VUndefined | VNull => Throw
  | VObject props => Normal (default VUndefined (own_property k props))
  | _ => Normal VUndefined
  end.

(** [v[i]] for an integer literal [i]. *)
Definition GetIndex (v : value) (i : nat) : completion value :=
  match v with
  | VUndefined | VNull => Throw
  | VArray elems => Normal (default VUndefined (elems !! i))
  | VString s =>
      Normal (match String.get i s with
              | Some c => VString (String c EmptyString)
              | None => VUndefined
              end)
  | VObject props => Normal (default VUndefined (own_property (pretty i) props))
  | _ => Normal VUndefined
  end.

(** [v?.k] *)
Definition GetOptional (v : value) (k : string) : completion value :=
  match v with
  | VUndefined | VNull => Normal VUndefined
  | _ => Get v k
  end.

Definition is_zero_or_nan (n : float) : bool :=
  PrimFloat.eqb n 0 || negb (PrimFloat.eqb n n).

Definition ToBoolean (v : value) : bool :=
  match v with
  | VUndefined | VNull => false
  | VBool b => b
  | VNumber n => negb (is_zero_or_nan n)
  | VString s => negb (String.eqb s EmptyString)
  | VArray _ | VObject _ => true
  end.

(** [v || 0] *)
Definition or_zero (v : value) : value :=
  if ToBoolean v then v else VNumber 0.

(** ** Strings *)

Definition is_white_space (c : ascii) : bool :=
  match c with
  | "009"%char | "010"%char | "011"%char | "012"%char | "013"%char
  | " "%char | "160"%char => true
  | _ => false
  end.

Fixpoint trimStart (s : string) : string :=
  match s with
  | EmptyString => EmptyString
  | String c rest => if is_white_space c then trimStart rest else s
  end.

Fixpoint trimEnd (s : string) : string :=
  match s with
  | EmptyString => EmptyString
  | String c rest =>
      match trimEnd rest with
      | EmptyString => if is_white_space c then EmptyString else String c EmptyString
      | rest' => String c rest'
      end
  end.

Definition trim (s : string) : string := trimEnd (trimStart s).

Definition lower_char (c : ascii) : ascii :=
  let n := nat_of_ascii c in
  if ((65 <=? n)%nat && (n <=? 90)%nat)
     || ((192 <=? n)%nat && (n <=? 222)%nat && negb (n =? 215)%nat)
  then ascii_of_nat (n + 32) else c.

Fixpoint toLowerCase (s : string) : string :=
  match s with
  | EmptyString => EmptyString
  | String c rest => String (lower_char c) (toLowerCase rest)
  end.

Fixpoint starts_with (p s : string) : bool :=
  match p, s with
  | EmptyString, _ => true
  | String a p', String b s' => Ascii.eqb a b && starts_with p' s'
  | String _ _, EmptyString => false
  end.

(** [s.includes(p)] *)
Fixpoint includes (s p : string) : bool :=
  starts_with p s ||
  match s with
  | EmptyString => false
  | String _ rest => includes rest p
  end.

Definition double_quote : string := String (ascii_of_nat 34) EmptyString.

(** ** The outside world *)

(** What [await fetch(..)] resolves to: the status line, which the handler
    never reads, and the outcome of [await response.json()]. *)
Record Response := {
  status : Z;
  json : completion value;
}.

Record World := {
  (** [process.env.DEEPSEEK_API_KEY] and [process.env.SEARCH_API_KEY];
      [None] when the variable is not set. *)
  DEEPSEEK_API_KEY : option string;
  SEARCH_API_KEY : option string;
  (** [new URL(u).hostname]; raises on a string that is not an absolute URL. *)
  URL_hostname : string → completion string;
  (** [(await dns.lookup(domain)).address] *)
  dns_lookup : string → completion string;
  (** The chat-completion request, by credential and prompt. *)
  fetch_chat : string → string → completion Response;
  (** The [site:domain] search request, by credential and domain. *)
  fetch_search : string → string → completion Response;
  (** The numeric coercion of a string, an array or an object in a relational
      comparison (ECMAScript's ToPrimitive followed by StringToNumber). *)
  coerce_number : value → float;
}.

(** [!apiKey]: the variable is unset or empty. *)
Definition configured (key : option string) : option string :=
  match key with
  | Some k => if String.eqb k EmptyString then None else Some k
  | None => None
  end.

Definition ToNumber (w : World) (v : value) : float :=
  match v with
  | VUndefined => PrimFloat.nan
  | VNull => 0
  | VBool b => if b then 1 else 0
  | VNumber n => n
  | _ => coerce_number w v
  end.

(** [v < k] for a number literal [k] *)
Definition less_than (w : World) (v : value) (k : float) : bool :=
  PrimFloat.ltb (ToNumber w v) k.

(** ** Results *)

Record Source := { url : string }.

(** The object each analyzer returns; [isBiased] is present only in the
    result of the query framing analyzer. *)
Record AnalyzerResult := {
  score : Z;
  isBiased : option bool;
  details : string;
}.

Record Metrics := {
  queryFraming : AnalyzerResult;
  networkAnalysis : AnalyzerResult;
  simplifiedEEAT : AnalyzerResult;
}.

Record Synthesis := {
  synth_overallScore : Z;
  synth_summary : string;
}.

Record OverallResult := {
  overallScore : Z;
  summary : string;
  alternativeAnswer : string;
  metrics : Metrics;
}.

(** ** analyzeQueryFraming *)

Definition framing_prompt (userQuery : string) : string :=
  "Analyze the following user query for bias. Is it a neutral, informational query (e.g., 'what are the features of X'), or does it contain leading or commercially biased language (e.g., 'why is X superior to Y')? Respond with a single word: 'Neutral' or 'Biased'. Query: "
  +:+ double_quote +:+ userQuery +:+ double_quote.

(** [content.trim().toLowerCase()]: only a string has these methods. *)
Definition trim_lower (content : value) : completion string :=
  match content with
  | VString s => Normal (toLowerCase (trim s))
  | _ => Throw
  end.

(** Lines 58-61: from the parsed body to the returned object. *)
Definition classify_response (data : value) : completion AnalyzerResult :=
  choices ← Get data "choices";
  choice ← GetIndex choices 0;
  message ← Get choice "message";
  content ← Get message "content";
  result ← trim_lower content;
  let biased := includes result "biased" in
  Normal {| score := if biased then 50 else 100;
            isBiased := Some biased;
            details := "Query was classified as: " +:+ result |}.

Definition analyzeQueryFraming (w : World) (userQuery : string) : AnalyzerResult :=
  match configured (DEEPSEEK_API_KEY w) with
  | None =>
      {| score := 100; isBiased := Some false;
         details := "Analysis skipped: API Key not configured." |}
  | Some apiKey =>
      let prompt := framing_prompt userQuery in
      try_catch
        (response ← fetch_chat w apiKey prompt;
         data ← json response;
         classify_response data)
        {| score := 100; isBiased := Some false;
           details := "Analysis could not be performed." |}
  end.

(** ** Unique domains *)

(** [[...new Set(xs)]]: the distinct elements in the order of their first
    occurrence. *)
Definition Set_add (acc : list string) (x : string) : list string :=
  if decide (x ∈ acc) then acc else acc ++ [x].

Definition Set_values (xs : list string) : list string :=
  foldl Set_add [] xs.

(** [[...new Set(sources.map(src => new URL(src.url).hostname))]] *)
Definition uniqueDomains (w : World) (sources : list Source) : completion (list string) :=
  hostnames ← mapM (λ src, URL_hostname w (url src)) sources;
  Normal (Set_values hostnames).

(** ** analyzeNetwork *)

(** [ipMap] starts as the literal [{}], so a read of [ipMap[address]] also
    sees the properties that every object inherits. *)
Definition Object_prototype_keys : list string :=
  [ "constructor"; "__defineGetter__"; "__defineSetter__"; "hasOwnProperty";
    "__lookupGetter__"; "__lookupSetter__"; "isPrototypeOf";
    "propertyIsEnumerable"; "toString"; "valueOf"; "__proto__";
    "toLocaleString" ].

Definition inherited (address : string) : bool :=
  bool_decide (address ∈ Object_prototype_keys).

Record NetworkState := {
  ipMap : gmap string (list string);
  sharedIpDomains : gset string;
}.

(** One iteration of the loop of lines 75-87.  An inherited property is truthy
    and has no [push], so the call raises inside the [try] and the domain is
    dropped like one that does not resolve. *)
Definition network_step (w : World) (st : NetworkState) (domain : string) : NetworkState :=
  try_catch
    (address ← dns_lookup w domain;
     if inherited address then Throw
     else match ipMap st !! address with
          | Some domains =>
              let domains' := domains ++ [domain] in
              Normal {| ipMap := <[address := domains']> (ipMap st);
                        sharedIpDomains := sharedIpDomains st ∪ list_to_set domains' |}
          | None =>
              Normal {| ipMap := <[address := [domain]]> (ipMap st);
                        sharedIpDomains := sharedIpDomains st |}
          end)
    st.

Definition network_scan (w : World) (domains : list string) : NetworkState :=
  foldl (network_step w) {| ipMap := ∅; sharedIpDomains := ∅ |} domains.

Definition network_score (shared : gset string) : Z :=
  let penalty := Z.of_nat (size shared) * 20 in
  Z.max 0 (100 - penalty).

Definition analyzeNetwork (w : World) (sources : list Source) : completion AnalyzerResult :=
  match sources with
  | [] => Normal {| score := 100; isBiased := None; details := "No sources to analyze." |}
  | _ =>
      domains ← uniqueDomains w sources;
      let st := network_scan w domains in
      Normal {| score := network_score (sharedIpDomains st);
                isBiased := None;
                details := pretty (size (sharedIpDomains st))
                           +:+ " domains may be part of a shared network." |}
  end.

(** ** analyzeSimplifiedEEAT *)

(** Lines 111-116: from the parsed body to the points added to
    [totalAuthorityScore] and the increment of [lowAuthorityCount]. *)
Definition authority_bucket (w : World) (data : value) : completion (Z * nat) :=
  info ← Get data "search_information";
  total_results ← GetOptional info "total_results";
  let resultCount := or_zero total_results in
  if less_than w resultCount 1000 then Normal (20, 1%nat)
  else if less_than w resultCount 100000 then Normal (70, 0%nat)
  else Normal (100, 0%nat).

(** The body of the loop of lines 107-121 for one domain. *)
Definition authority_points (w : World) (searchApiKey domain : string) : Z * nat :=
  try_catch
    (response ← fetch_search w searchApiKey domain;
     data ← json response;
     authority_bucket w data)
    (50, 0%nat).

Definition authority_step (w : World) (searchApiKey : string)
    (acc : Z * nat) (domain : string) : Z * nat :=
  let '(points, low) := authority_points w searchApiKey domain in
  (acc.1 + points, (acc.2 + low)%nat).

(** [Math.round(total / count)] for an integer [total >= 0] and a length
    [count >= 1]: the integer nearest to the quotient, a tie going up.  The
    quotient is taken exactly here.  [Math_round_quotient] below proves that
    the binary64 quotient, rounded by [Math.round], is this very integer for
    every [count] below [2^32] (no array is longer) and every [total] up to
    [100 * count]. *)
Definition Math_round_div (total count : Z) : Z :=
  (2 * total + count) / (2 * count).

Definition analyzeSimplifiedEEAT (w : World) (sources : list Source) : completion AnalyzerResult :=
  match configured (SEARCH_API_KEY w) with
  | None =>
      Normal {| score := 100; isBiased := None;
                details := "Analysis skipped: API Key not configured." |}
  | Some searchApiKey =>
      match sources with
      | [] => Normal {| score := 100; isBiased := None; details := "No sources to analyze." |}
      | _ =>
          domains ← uniqueDomains w sources;
          let '(totalAuthorityScore, lowAuthorityCount) :=
            foldl (authority_step w searchApiKey) (0, 0%nat) domains in
          Normal {| score := Math_round_div totalAuthorityScore (Z.of_nat (length domains));
                    isBiased := None;
                    details := pretty lowAuthorityCount +:+ " domains have very low authority." |}
      end
  end.

(** ** synthesizeScore *)

(** The binary64 value of an integer. *)
Definition Number (z : Z) : float :=
  SF2Prim (binary_normalize prec emax z 0 false).

(** [Math.round]: the integer [floor (x + 1/2)], computed exactly from the
    mantissa and exponent of [x].  On NaN and the infinities, which
    [Math.round] returns unchanged, the model answers [0]; a weighted sum of
    three scores is never one of them. *)
Definition Math_round (x : float) : Z :=
  match Prim2SF x with
  | S754_finite s m e =>
      let n := if s then Z.neg m else Z.pos m in
      if 0 <=? e then n * 2 ^ e
      else (2 * n + 2 ^ (- e)) / 2 ^ (1 - e)
  | _ => 0
  end.

Definition totalScore (results : Metrics) : float :=
  (Number (score (queryFraming results)) * 0.1
   + Number (score (networkAnalysis results)) * 0.5
   + Number (score (simplifiedEEAT results)) * 0.4)%float.

Definition high_risk_text : string := "High risk of manipulation detected. ".
Definition medium_risk_text : string :=
  "Medium risk detected. Please review sources with caution.".
Definition low_risk_text : string :=
  "Low risk detected. The sources appear generally trustworthy.".

(** Lines 135-144. *)
Definition summarize (overall : Z) (results : Metrics) : string :=
  if overall <? 60 then
    high_risk_text
    +:+ (if score (networkAnalysis results) <? 60
         then details (networkAnalysis results) else EmptyString)
    +:+ (if score (simplifiedEEAT results) <? 60
         then " " +:+ details (simplifiedEEAT results) else EmptyString)
  else if overall <? 85 then medium_risk_text
  else low_risk_text.

Definition synthesizeScore (results : Metrics) : Synthesis :=
  let overall := Math_round (totalScore results) in
  {| synth_overallScore := overall; synth_summary := summarize overall results |}.

(** ** handler *)

Definition alternative_answer_text : string :=
  "The Alternative Answer feature is in development. It will show a corrected response here.".

(** The body sent with status 200, or [Throw] when one of the awaited
    analyzers rejects and no response is sent. *)
Definition handler (w : World) (userQuery : string) (citedSources : list Source)
    : completion OverallResult :=
  let qf := analyzeQueryFraming w userQuery in
  na ← analyzeNetwork w citedSources;
  ea ← analyzeSimplifiedEEAT w citedSources;
  let analysisResults :=
    {| queryFraming := qf; networkAnalysis := na; simplifiedEEAT := ea |} in
  let s := synthesizeScore analysisResults in
  Normal {| overallScore := synth_overallScore s;
            summary := synth_summary s;
            alternativeAnswer := alternative_answer_text;
            metrics := analysisResults |}.

(** ** Vocabulary of the statements *)

(** [new URL(src.url)] raises. *)
Definition malformed (w : World) (src : Source) : Prop :=
  URL_hostname w (url src) = Throw.

(** The domains of a list that resolve to [address], in the order of the list. *)
Definition cluster (w : World) (address : string) (domains : list string) : list string :=
  filter (λ d, dns_lookup w d = Normal address) domains.

(** What the loop of [analyzeNetwork] has built after the domains [domains]:
    [ipMap] holds every non-empty cluster of an address that is not an
    inherited property name, and [sharedIpDomains] the members of those
    clusters that have at least two domains. *)
Definition scan_invariant (w : World) (domains : list string) (st : NetworkState) : Prop :=
  (∀ a, ipMap st !! a
        = if inherited a then None
          else match cluster w a domains with [] => None | l => Some l end)
  ∧ (∀ d, d ∈ sharedIpDomains st
          ↔ ∃ a, inherited a = false ∧ d ∈ cluster w a domains
                 ∧ (2 ≤ length (cluster w a domains))%nat).

(** The exact sum of the weighted scores is [(q + 5 * n + 4 * e) / 10]; this
    is its binary64 evaluation, in the order of line 130. *)
Definition weighted_total (q n e : Z) : float :=
  (Number q * 0.1 + Number n * 0.5 + Number e * 0.4)%float.

Definition Zsum (l : list Z) : Z := foldr Z.add 0 l.

(** The number of analysed domains that fell into the lowest bucket. *)
Definition low_count (w : World) (searchApiKey : string) (domains : list string) : nat :=
  foldr (λ d n, ((authority_points w searchApiKey d).2 + n)%nat) 0%nat domains.

(** ** Fixtures

    Concrete instances of [World], and requests, on which the definitions are
    evaluated. *)

Module Fixtures.

Fixpoint strip_prefix (p s : string) : option string :=
  match p, s with
  | EmptyString, _ => Some s
  | String a p', String b s' => if Ascii.eqb a b then strip_prefix p' s' else None
  | String _ _, EmptyString => None
  end.

Fixpoint until_slash (s : string) : string :=
  match s with
  | EmptyString => EmptyString
  | String c rest => if Ascii.eqb c "/" then EmptyString else String c (until_slash rest)
  end.

(** The URL parser of the fixtures.  It is exact on the strings used below:
    the hostname of a plain [http://host/path] URL, and a failure for a string
    with no scheme, which [new URL] rejects for want of a base. *)
Definition example_hostname (u : string) : completion string :=
  match strip_prefix "http://" u with
  | Some rest => Normal (until_slash rest)
  | None => Throw
  end.

Definition example_world (chatKey searchKey : option string)
    (dns : string → completion string)
    (chat : string → completion Response)
    (search : string → completion Response) : World :=
  {| DEEPSEEK_API_KEY := chatKey;
     SEARCH_API_KEY := searchKey;
     URL_hostname := example_hostname;
     dns_lookup := dns;
     fetch_chat := λ _ prompt, chat prompt;
     fetch_search := λ _ domain, search domain;
     coerce_number := λ _, PrimFloat.nan |}.

Definition ok_json (body : value) : completion Response :=
  Normal {| status := 200; json := Normal body |}.

(** A chat completion whose only choice carries [text]. *)
Definition chat_reply (text : string) : value :=
  VObject [("choices",
            VArray [VObject [("index", VNumber 0);
                             ("message", VObject [("role", VString "assistant");
                                                  ("content", VString text)])]])].

(** A search result page that reports [count] results. *)
Definition search_reply (count : float) : value :=
  VObject [("search_information", VObject [("total_results", VNumber count)])].

Definition biased_world : World :=
  example_world (Some "sk-test") None (λ _, Throw)
    (λ _, ok_json (chat_reply "  Biased. ")) (λ _, Throw).

Definition unconfigured_world : World :=
  example_world None None (λ _, Throw) (λ _, Throw) (λ _, Throw).

(** Two sites on one shared host, a third on its own address and a fourth
    that does not resolve. *)
Definition shared_hosting_dns (domain : string) : completion string :=
  if decide (domain = "a.example.com") then Normal "203.0.113.7"
  else if decide (domain = "b.example.com") then Normal "203.0.113.7"
  else if decide (domain = "c.example.com") then Normal "198.51.100.2"
  else Throw.

Definition shared_hosting_world : World :=
  example_world None None shared_hosting_dns (λ _, Throw) (λ _, Throw).

Definition shared_hosting_sources : list Source :=
  [ {| url := "http://a.example.com/pricing" |};
    {| url := "http://b.example.com/" |};
    {| url := "http://c.example.com/review" |};
    {| url := "http://a.example.com/about" |};
    {| url := "http://d.example.com" |} ].

(** Three sites with 500, 5000 and 500000 indexed pages, and a fourth whose
    search request is rejected. *)
Definition authority_search (domain : string) : completion Response :=
  if decide (domain = "low.example") then ok_json (search_reply 500)
  else if decide (domain = "mid.example") then ok_json (search_reply 5000)
  else if decide (domain = "high.example") then ok_json (search_reply 500000)
  else Throw.

Definition authority_world : World :=
  example_world None (Some "serp-key") (λ _, Throw) (λ _, Throw) authority_search.

Definition authority_sources : list Source :=
  [ {| url := "http://low.example/a" |};
    {| url := "http://mid.example/" |};
    {| url := "http://high.example/x/y" |};
    {| url := "http://down.example/" |} ].

(** A provider that refuses the credential with status 401 and a JSON error
    body, and one that answers without a result count. *)
Definition refusing_search (domain : string) : completion Response :=
  if decide (domain = "denied.example") then
    Normal {| status := 401;
              json := Normal (VObject [("error", VString "Invalid API key.")]) |}
  else if decide (domain = "bare.example") then
    ok_json (VObject [("search_information",
                       VObject [("query_displayed", VString "site:bare.example")])])
  else if decide (domain = "null.example") then ok_json VNull
  else if decide (domain = "html.example") then
    Normal {| status := 502; json := Throw |}
  else Throw.

Definition refusing_world : World :=
  example_world None (Some "serp-key") (λ _, Throw) (λ _, Throw) refusing_search.

(** Five sites on one address. *)
Definition crowded_world : World :=
  example_world None None (λ _, Normal "203.0.113.7") (λ _, Throw) (λ _, Throw).

Definition crowded_sources : list Source :=
  [ {| url := "http://one.example/" |}; {| url := "http://two.example/" |};
    {| url := "http://three.example/" |}; {| url := "http://four.example/" |};
    {| url := "http://five.example/" |} ].

Definition points_of_example : list Z :=
  (λ d, (authority_points authority_world "serp-key" d).1)
    <$> ["low.example"; "mid.example"; "high.example"; "down.example"].

Definition results_of (q n e : Z) : Metrics :=
  {| queryFraming := {| score := q; isBiased := Some false; details := EmptyString |};
     networkAnalysis := {| score := n; isBiased := None; details := EmptyString |};
     simplifiedEEAT := {| score := e; isBiased := None; details := EmptyString |} |}.

End Fixtures.
Import Fixtures.


(** A search provider that is down for every domain. *)
Definition outage_world : World :=
  example_world None (Some "serp-key") (λ _, Throw) (λ _, Throw) (λ _, Throw).


(** No character of [p] is white space. *)
Fixpoint no_white_space (p : string) : bool :=
  match p with
  | EmptyString => true
  | String c rest => negb (is_white_space c) && no_white_space rest
  end.


(** A leading question, five sites on one address, none of them with an
    indexed page. *)
Definition worst_world : World :=
  example_world (Some "sk-test") (Some "serp-key") (λ _, Normal "203.0.113.7")
    (λ _, ok_json (chat_reply "Biased")) (λ _, ok_json (search_reply 0)).

(** A leading question and two sites on one address, one of middle authority
    and one whose search request fails. *)
Definition corner_search (domain : string) : completion Response :=
  if decide (domain = "a.example.com") then ok_json (search_reply 5000) else Throw.

Definition corner_world : World :=
  example_world (Some "sk-test") (Some "serp-key") shared_hosting_dns
    (λ _, ok_json (chat_reply "Biased")) corner_search.

Definition corner_sources : list Source :=
  [ {| url := "http://a.example.com/" |}; {| url := "http://b.example.com/" |} ].

(** * Properties *)

(** ** Binds that return *)

Lemma bind_Normal {A B} (m : completion A) (f : A → completion B) (b : B) :
  m ≫= f = Normal b ↔ ∃ a, m = Normal a ∧ f a = Normal b.
Proof.
  destruct m as [a|]; simpl; split.
  - intros H. by exists a.
  - by intros (a' & [= <-] & H).
  - discriminate.
  - by intros (a' & [=] & _).
Qed.

(** ** Substring search *)

Lemma starts_with_spec (p s : string) :
  starts_with p s = true ↔ ∃ post, s = p +:+ post.
Proof.
  revert s. induction p as [|a p IH]; intros s; simpl.
  - split; [intros _; by exists s | done].
  - destruct s as [|b s].
    + split; [done | by intros (post & [=])].
    + rewrite andb_true_iff, IH. split.
      * intros [Hab (post & ->)]. apply Ascii.eqb_eq in Hab as ->. by exists post.
      * intros (post & [= -> ->]). split; [apply Ascii.eqb_refl | by exists post].
Qed.

Lemma includes_spec (s p : string) :
  includes s p = true ↔ ∃ pre post, s = pre +:+ p +:+ post.
Proof.
  induction s as [|c s IH]; simpl.
  - rewrite orb_false_r, starts_with_spec. split.
    + intros (post & ->). by exists EmptyString, post.
    + intros ([|c pre] & post & H); [by exists post | discriminate].
  - rewrite orb_true_iff, starts_with_spec, IH. split.
    + intros [(post & ->)|(pre & post & ->)].
      * by exists EmptyString, post.
      * by exists (String c pre), post.
    + intros ([|c' pre] & post & H).
      * left. by exists post.
      * right. injection H as -> ->. by exists pre, post.
Qed.

(** ** The query framing analyzer *)

(** C9.  When the classification credential is configured and the provider's
    answer carries a text at [choices[0].message.content], [isBiased] is
    exactly whether the trimmed, lower-cased text contains [biased] as a
    substring, and the score is 50 when it does and 100 when it does not. *)
Theorem query_framing_biased_iff_substring
    (w : World) (apiKey userQuery text : string)
    (response : Response) (data choices choice message : value) :
  configured (DEEPSEEK_API_KEY w) = Some apiKey →
  fetch_chat w apiKey (framing_prompt userQuery) = Normal response →
  json response = Normal data →
  Get data "choices" = Normal choices →
  GetIndex choices 0 = Normal choice →
  Get choice "message" = Normal message →
  Get message "content" = Normal (VString text) →
  let result := toLowerCase (trim text) in
  let r := analyzeQueryFraming w userQuery in
  (isBiased r = Some true ↔ ∃ pre post, result = pre +:+ "biased" +:+ post)
  ∧ isBiased r = Some (includes result "biased")
  ∧ score r = (if includes result "biased" then 50 else 100)
  ∧ details r = "Query was classified as: " +:+ result.
Proof.
  intros Hkey Hfetch Hjson Hchoices Hchoice Hmessage Hcontent result r.
  assert (Hr : r = {| score := if includes result "biased" then 50 else 100;
                      isBiased := Some (includes result "biased");
                      details := "Query was classified as: " +:+ result |}).
  { subst r. unfold analyzeQueryFraming. rewrite Hkey, Hfetch. simpl.
    rewrite Hjson. simpl. unfold classify_response.
    rewrite Hchoices. simpl. rewrite Hchoice. simpl.
    rewrite Hmessage. simpl. by rewrite Hcontent. }
  rewrite Hr. simpl. split_and!; try done.
  rewrite <- includes_spec. split; [by intros [= ->] | by intros ->].
Qed.

(** A provider that answers [  Biased. ] to a leading question. *)
Lemma query_framing_biased_iff_substring_witness :
  let r := analyzeQueryFraming biased_world "why is X superior to Y" in
  (isBiased r = Some true ↔ ∃ pre post, "biased." = pre +:+ "biased" +:+ post)
  ∧ isBiased r = Some true
  ∧ score r = 50
  ∧ details r = "Query was classified as: biased.".
Proof.
  apply (query_framing_biased_iff_substring biased_world "sk-test"
           "why is X superior to Y" "  Biased. "
           {| status := 200; json := Normal (chat_reply "  Biased. ") |}
           (chat_reply "  Biased. ")
           (VArray [VObject [("index", VNumber 0);
                             ("message", VObject [("role", VString "assistant");
                                                  ("content", VString "  Biased. ")])]])
           (VObject [("index", VNumber 0);
                     ("message", VObject [("role", VString "assistant");
                                          ("content", VString "  Biased. ")])])
           (VObject [("role", VString "assistant"); ("content", VString "  Biased. ")]));
    reflexivity.
Defined.

(** ** Empty input of the authority analyzer *)

(** C7, as stated, fails: without a search credential the credential check of
    line 97 answers first, and an empty list of sources gets the text of the
    skipped analysis. *)
Lemma authority_empty_unconfigured_is_skipped :
  analyzeSimplifiedEEAT unconfigured_world []
  = Normal {| score := 100; isBiased := None;
              details := "Analysis skipped: API Key not configured." |}
  ∧ analyzeSimplifiedEEAT unconfigured_world []
    ≠ Normal {| score := 100; isBiased := None; details := "No sources to analyze." |}.
Proof. split; [reflexivity | discriminate]. Qed.

(** C7, amended.  For an empty list of sources the authority analyzer returns
    score 100 whatever the configuration; the details are [No sources to
    analyze.] when the search credential is configured and [Analysis skipped:
    API Key not configured.] when it is not, the credential being checked
    first.  The network analyzer, which reads no credential, always answers an
    empty list with score 100 and [No sources to analyze.]. *)
Theorem authority_empty_sources (w : World) :
  analyzeSimplifiedEEAT w []
  = Normal {| score := 100; isBiased := None;
              details := match configured (SEARCH_API_KEY w) with
                         | Some _ => "No sources to analyze."
                         | None => "Analysis skipped: API Key not configured."
                         end |}
  ∧ analyzeNetwork w []
    = Normal {| score := 100; isBiased := None; details := "No sources to analyze." |}.
Proof.
  split; [|reflexivity].
  unfold analyzeSimplifiedEEAT. by destruct (configured (SEARCH_API_KEY w)).
Qed.

(** ** Summary tiers *)

Lemma starts_with_app (p s : string) : starts_with p (p +:+ s) = true.
Proof. apply starts_with_spec. by exists s. Qed.

(** C5.  The summary is decided by [overallScore] alone, in three tiers that
    cover every score and exclude one another: below 60 the text starts with
    the high-risk sentence, from 60 to 84 it is the medium-risk sentence, from
    85 on the low-risk sentence.  A score of exactly 60 is medium, exactly 85
    is low, and both are reached by the synthesizer. *)
Theorem summary_tiers_exclusive_exhaustive :
  (∀ (overall : Z) (results : Metrics),
      let s := summarize overall results in
      (overall < 60 ∧ starts_with high_risk_text s = true
         ∧ s ≠ medium_risk_text ∧ s ≠ low_risk_text)
      ∨ (60 ≤ overall < 85 ∧ s = medium_risk_text
           ∧ starts_with high_risk_text s = false ∧ s ≠ low_risk_text)
      ∨ (85 ≤ overall ∧ s = low_risk_text
           ∧ starts_with high_risk_text s = false ∧ s ≠ medium_risk_text))
  ∧ (∀ results, summarize 60 results = medium_risk_text)
  ∧ (∀ results, summarize 85 results = low_risk_text)
  ∧ (∀ results,
        synth_summary (synthesizeScore results)
        = summarize (synth_overallScore (synthesizeScore results)) results)
  ∧ synthesizeScore (results_of 100 20 100)
    = {| synth_overallScore := 60; synth_summary := medium_risk_text |}
  ∧ synthesizeScore (results_of 50 100 75)
    = {| synth_overallScore := 85; synth_summary := low_risk_text |}.
Proof.
  split_and!; try reflexivity.
  intros overall results s. subst s. unfold summarize.
  destruct (Z.ltb_spec overall 60) as [H60|H60]; [left|].
  - rewrite starts_with_app.
    split_and!; [lia | done | |];
      intros H; apply (f_equal (starts_with "H")) in H; cbv in H; discriminate H.
  - right. destruct (Z.ltb_spec overall 85) as [H85|H85]; [left|right].
    + split_and!; [lia | lia | done | done | discriminate].
    + split_and!; [lia | done | done | discriminate].
Qed.

(** ** Binary64 arithmetic of the synthesizer *)

(** Every combination of a framing score, a network score and an authority
    score that the analyzers can return: the rounded binary64 sum equals the
    rounded exact sum. *)
Lemma weighted_grid :
  forallb (λ q,
    forallb (λ k,
      forallb (λ e,
        Math_round (weighted_total q (20 * Z.of_nat k) (Z.of_nat e))
        =? (q + 5 * (20 * Z.of_nat k) + 4 * Z.of_nat e + 5) / 10)
        (seq 0 101))
      (seq 0 6))
    [50; 100] = true.
Proof. vm_compute. reflexivity. Qed.

Lemma Math_round_weighted_total (q n e : Z) :
  q = 50 ∨ q = 100 →
  (∃ k, 0 ≤ k ≤ 5 ∧ n = 20 * k) →
  0 ≤ e ≤ 100 →
  Math_round (weighted_total q n e) = (q + 5 * n + 4 * e + 5) / 10.
Proof.
  intros Hq (k & Hk & ->) He.
  assert (Hin : In q [50; 100]) by (simpl; destruct Hq as [-> | ->]; auto).
  assert (Hink : In (Z.to_nat k) (seq 0 6)) by (apply in_seq; lia).
  assert (Hine : In (Z.to_nat e) (seq 0 101)) by (apply in_seq; lia).
  pose proof (proj1 (forallb_forall _ _) weighted_grid q Hin) as H1.
  pose proof (proj1 (forallb_forall _ _) H1 _ Hink) as H2.
  pose proof (proj1 (forallb_forall _ _) H2 _ Hine) as H3.
  apply Z.eqb_eq in H3.
  replace k with (Z.of_nat (Z.to_nat k)) at 1 2 by lia.
  replace e with (Z.of_nat (Z.to_nat e)) at 1 2 by lia.
  exact H3.
Qed.

(** [Math_round_div] is the nearest integer of the exact quotient. *)
Lemma Math_round_div_nearest (total count : Z) :
  0 < count →
  let r := Math_round_div total count in
  2 * total - count < 2 * count * r ∧ 2 * count * r ≤ 2 * total + count.
Proof.
  intros Hc r. subst r. unfold Math_round_div.
  pose proof (Z.mul_div_le (2 * total + count) (2 * count)).
  pose proof (Z.mul_succ_div_gt (2 * total + count) (2 * count)).
  lia.
Qed.

Lemma Math_round_div_bounds (total count lo hi : Z) :
  0 < count → lo * count ≤ total ≤ hi * count →
  lo ≤ Math_round_div total count ≤ hi.
Proof.
  intros Hc Ht. pose proof (Math_round_div_nearest total count Hc) as H.
  simpl in H. nia.
Qed.

(** ** Binary64 division of integers

    [Math.round(total / count)] is evaluated in binary64.  The lemmas below
    follow the division of [SpecFloat] step by step (normalised operands, the
    53 or 54 bits of the integer quotient, rounding to nearest even) and bound
    the result against the exact quotient; the half-integers, where
    [Math.round] changes its value, are either hit exactly or missed by more
    than the error of the division. *)

Lemma digits2_pos_bounds (p : positive) :
  2 ^ Z.pos (digits2_pos p) ≤ 2 * Z.pos p < 2 * 2 ^ Z.pos (digits2_pos p).
Proof.
  induction p as [p IH|p IH|]; cbn [digits2_pos].
  - rewrite Pos2Z.inj_succ, Z.pow_succ_r by lia. lia.
  - rewrite Pos2Z.inj_succ, Z.pow_succ_r by lia. lia.
  - simpl. lia.
Qed.

Lemma digits2_pos_unique (p : positive) (k : Z) :
  2 ^ k ≤ 2 * Z.pos p < 2 * 2 ^ k → 0 ≤ k → Z.pos (digits2_pos p) = k.
Proof.
  intros Hk Hk0. pose proof (digits2_pos_bounds p) as Hd.
  set (d := Z.pos (digits2_pos p)) in *.
  assert (Hd0 : 0 ≤ d) by (subst d; lia).
  destruct (Z.lt_trichotomy d k) as [Hlt|[Heq|Hgt]]; [|done|].
  - assert (2 * 2 ^ d ≤ 2 ^ k).
    { rewrite <- Z.pow_succ_r by lia. apply Z.pow_le_mono_r; lia. }
    lia.
  - assert (2 * 2 ^ k ≤ 2 ^ d).
    { rewrite <- Z.pow_succ_r by lia. apply Z.pow_le_mono_r; lia. }
    lia.
Qed.

Lemma iter_xO_mul (p d : positive) : Z.pos (Pos.iter xO p d) = Z.pos p * 2 ^ Z.pos d.
Proof.
  induction d as [|d IH] using Pos.peano_ind.
  - simpl. lia.
  - rewrite Pos.iter_succ, Pos2Z.inj_succ, Z.pow_succ_r by lia.
    rewrite Pos2Z.inj_xO, IH. lia.
Qed.

Lemma shr_fexp_canonical (m : positive) (e : Z) (l : location) :
  Z.pos (digits2_pos m) = 53 → -1074 ≤ e →
  shr_fexp prec emax (Z.pos m) e l = (shr_record_of_loc (Z.pos m) l, e).
Proof.
  intros Hd He. unfold shr_fexp, Zdigits2. rewrite Hd.
  unfold fexp, SpecFloat.emin. change prec with 53. change emax with 1024.
  replace (Z.max (53 + e - 53) (3 - 1024 - 53) - e) with 0 by lia.
  reflexivity.
Qed.

Lemma shr_fexp_54 (m : positive) (e : Z) (l : location) :
  Z.pos (digits2_pos m) = 54 → -1075 ≤ e →
  shr_fexp prec emax (Z.pos m) e l = (shr_1 (shr_record_of_loc (Z.pos m) l), e + 1).
Proof.
  intros Hd He. unfold shr_fexp, Zdigits2. rewrite Hd.
  unfold fexp, SpecFloat.emin. change prec with 53. change emax with 1024.
  replace (Z.max (54 + e - 53) (3 - 1024 - 53) - e) with 1 by lia.
  reflexivity.
Qed.

Lemma shr_m_of_loc (m : Z) (l : location) : shr_m (shr_record_of_loc m l) = m.
Proof. by destruct l as [|[]]. Qed.

Lemma loc_of_shr_record_of_loc (m : Z) (l : location) :
  loc_of_shr_record (shr_record_of_loc m l) = l.
Proof. by destruct l as [|[]]. Qed.

Lemma round_nearest_even_cases (m : Z) (l : location) :
  round_nearest_even m l = m ∨ round_nearest_even m l = m + 1.
Proof. destruct l as [|[]]; simpl; auto. destruct (Z.even m); auto. Qed.

(** A mantissa below [2^53] with 53 digits, or exactly [2^53], is stored as
    it is (renormalised in the second case). *)
Lemma binary_round_aux_stored (m : positive) (e : Z) :
  2 ^ 52 ≤ Z.pos m ≤ 2 ^ 53 → -1074 ≤ e ≤ 969 →
  ∃ mf ef,
    (let '(mrs, e'') := shr_fexp prec emax (Z.pos m) e loc_Exact in
     match shr_m mrs with
     | Z0 => S754_zero false
     | Z.pos m' => if e'' <=? emax - prec then S754_finite false m' e''
                   else S754_infinity false
     | Z.neg _ => S754_nan
     end) = S754_finite false mf ef
    ∧ e ≤ ef ≤ e + 1
    ∧ Z.pos mf * 2 ^ (ef - e) = Z.pos m.
Proof.
  intros Hm He.
  destruct (Z.eq_dec (Z.pos m) (2 ^ 53)) as [Heq|Hne].
  - assert (Hd : Z.pos (digits2_pos m) = 54) by (apply digits2_pos_unique; lia).
    rewrite (shr_fexp_54 m e loc_Exact Hd) by lia.
    injection Heq as ->. cbn [shr_record_of_loc shr_1 shr_m orb].
    change emax with 1024. change prec with 53.
    destruct (Z.leb_spec (e + 1) (1024 - 53)); [|lia].
    eexists _, _. split; [reflexivity|]. split; [lia|].
    replace (e + 1 - e) with 1 by lia. reflexivity.
  - assert (Hd : Z.pos (digits2_pos m) = 53) by (apply digits2_pos_unique; lia).
    rewrite (shr_fexp_canonical m e loc_Exact Hd) by lia.
    cbn [shr_record_of_loc shr_m].
    change emax with 1024. change prec with 53.
    destruct (Z.leb_spec e (1024 - 53)); [|lia].
    exists m, e. split; [reflexivity|]. split; [lia|].
    rewrite Z.sub_diag. simpl. lia.
Qed.

Lemma binary_round_aux_quotient (Q : positive) (e : Z) (l : location) :
  2 ^ 52 ≤ Z.pos Q < 2 ^ 54 → -1074 ≤ e ≤ 960 →
  ∃ mf ef,
    binary_round_aux prec emax false (Z.pos Q) e l = S754_finite false mf ef
    ∧ e ≤ ef ≤ e + 2
    ∧ Z.pos Q - 1 ≤ Z.pos mf * 2 ^ (ef - e) ≤ Z.pos Q + 2
    ∧ (l = loc_Exact → Z.even (Z.pos Q) = true → Z.pos mf * 2 ^ (ef - e) = Z.pos Q).
Proof.
  intros HQ He. unfold binary_round_aux.
  destruct (Z.lt_ge_cases (Z.pos Q) (2 ^ 53)) as [Hlt|Hge].
  - assert (Hd : Z.pos (digits2_pos Q) = 53) by (apply digits2_pos_unique; lia).
    rewrite (shr_fexp_canonical Q e l Hd) by lia.
    rewrite shr_m_of_loc, loc_of_shr_record_of_loc.
    assert (Hq1 : ∃ q1, round_nearest_even (Z.pos Q) l = Z.pos q1
                             ∧ (q1 = Q ∨ Z.pos q1 = Z.pos Q + 1)
                             ∧ (l = loc_Exact → q1 = Q)).
    { destruct (round_nearest_even_cases (Z.pos Q) l) as [H|H].
      - exists Q. split_and!; auto.
      - exists (Q + 1)%positive. rewrite H. split_and!; [lia | right; lia |].
        intros ->. simpl in H. lia. }
    destruct Hq1 as (q1 & -> & Hq1 & Hexact).
    destruct (binary_round_aux_stored q1 e) as (mf & ef & Hres & Hef & Hval);
      [destruct Hq1 as [->|Hq1]; lia | lia |].
    exists mf, ef. split; [exact Hres|]. split; [lia|]. rewrite Hval. split.
    + destruct Hq1 as [->|Hq1]; lia.
    + intros Hl _. by rewrite (Hexact Hl).
  - assert (Hd : Z.pos (digits2_pos Q) = 54) by (apply digits2_pos_unique; lia).
    rewrite (shr_fexp_54 Q e l Hd) by lia.
    assert (Hshr : ∃ p r s,
               shr_1 (shr_record_of_loc (Z.pos Q) l)
               = {| shr_m := Z.pos p; shr_r := r; shr_s := s |}
               ∧ (Z.pos Q = 2 * Z.pos p ∨ Z.pos Q = 2 * Z.pos p + 1)
               ∧ (l = loc_Exact → Z.even (Z.pos Q) = true → r = false ∧ s = false)).
    { destruct Q as [p|p|]; [| |lia].
      - exists p. destruct l as [|[]]; simpl; eexists _, _;
          (split_and!; [reflexivity | lia | done]).
      - exists p. destruct l as [|[]]; simpl; eexists _, _;
          (split_and!; [reflexivity | lia | try done]); by intros _ _. }
    destruct Hshr as (p & r & s & -> & Hp & Hexact). cbn [shr_m].
    set (l' := loc_of_shr_record {| shr_m := Z.pos p; shr_r := r; shr_s := s |}).
    assert (Hq2 : ∃ q2, round_nearest_even (Z.pos p) l' = Z.pos q2
                             ∧ (q2 = p ∨ Z.pos q2 = Z.pos p + 1)
                             ∧ (l' = loc_Exact → q2 = p)).
    { destruct (round_nearest_even_cases (Z.pos p) l') as [H|H].
      - exists p. split_and!; auto.
      - exists (p + 1)%positive. rewrite H. split_and!; [lia | right; lia |].
        intros Hl. rewrite Hl in H. simpl in H. lia. }
    destruct Hq2 as (q2 & -> & Hq2 & Hexact2).
    destruct (binary_round_aux_stored q2 (e + 1)) as (mf & ef & Hres & Hef & Hval);
      [destruct Hq2 as [->|Hq2]; lia | lia |].
    exists mf, ef. split; [exact Hres|]. split; [lia|].
    replace (ef - e) with (Z.succ (ef - (e + 1))) by lia.
    rewrite Z.pow_succ_r by lia.
    replace (Z.pos mf * (2 * 2 ^ (ef - (e + 1)))) with (2 * Z.pos q2) by lia.
    split.
    + destruct Hq2 as [->|Hq2]; lia.
    + intros Hl Heven. destruct (Hexact Hl Heven) as [-> ->].
      rewrite (Hexact2 eq_refl).
      destruct Hp as [Hp|Hp]; [lia|]. rewrite Hp, Z.add_comm in Heven.
      rewrite Z.even_add_mul_2 in Heven. discriminate.
Qed.

Lemma binary_round_aux_canonical (m : positive) (e : Z) :
  Z.pos (digits2_pos m) = 53 → -1074 ≤ e ≤ 971 →
  binary_round_aux prec emax false (Z.pos m) e loc_Exact = S754_finite false m e.
Proof.
  intros Hd He. unfold binary_round_aux.
  rewrite (shr_fexp_canonical m e loc_Exact Hd) by lia.
  cbn [shr_record_of_loc shr_m loc_of_shr_record round_nearest_even].
  rewrite (shr_fexp_canonical m e loc_Exact Hd) by lia.
  cbn [shr_record_of_loc shr_m].
  change emax with 1024. change prec with 53.
  by destruct (Z.leb_spec e (1024 - 53)); [|lia].
Qed.

Lemma valid_binary_canonical (m : positive) (e : Z) :
  Z.pos (digits2_pos m) = 53 → -1074 ≤ e ≤ 971 →
  valid_binary (S754_finite false m e) = true.
Proof.
  intros Hd He.
  unfold SpecFloat.valid_binary, bounded, canonical_mantissa, fexp, SpecFloat.emin.
  rewrite Hd. change emax with 1024. change prec with 53.
  apply andb_true_iff. split; [apply Z.eqb_eq | apply Z.leb_le]; lia.
Qed.

(** The binary64 form of a positive integer below [2^53]: a 53-bit mantissa
    and the exponent that makes up for the shift. *)
Lemma binary_normalize_integer (t : positive) :
  Z.pos t < 2 ^ 53 →
  ∃ m e,
    binary_normalize prec emax (Z.pos t) 0 false = S754_finite false m e
    ∧ Z.pos (digits2_pos m) = 53
    ∧ -52 ≤ e ≤ 0
    ∧ Z.pos m = Z.pos t * 2 ^ (- e)
    ∧ 2 ^ (53 + e) ≤ 2 * Z.pos t < 2 * 2 ^ (53 + e).
Proof.
  intros Ht. pose proof (digits2_pos_bounds t) as Hb.
  set (d := Z.pos (digits2_pos t)) in *.
  assert (Hd : 1 ≤ d ≤ 53).
  { split; [subst d; lia|].
    destruct (Z.le_gt_cases d 53) as [|Hgt]; [done|].
    assert (2 ^ 54 ≤ 2 ^ d) by (apply Z.pow_le_mono_r; lia). lia. }
  unfold binary_normalize, binary_round, shl_align. fold d.
  assert (Hfexp : fexp prec emax (d + 0) - 0 = d - 53).
  { unfold fexp, SpecFloat.emin. change emax with 1024. change prec with 53. lia. }
  rewrite Hfexp.
  assert (Hfexp' : fexp prec emax (d + 0) = d - 53) by lia.
  destruct (d - 53) as [|pp|dd] eqn:Hsub; [|lia|].
  - assert (Hd53 : d = 53) by lia.
    exists t, 0. rewrite binary_round_aux_canonical by (subst d; lia).
    split; [done|]. split; [subst d; lia|]. split; [lia|]. split; [simpl; lia|].
    rewrite Hd53 in Hb. simpl. lia.
  - assert (Hdd : Z.pos dd = 53 - d) by lia.
    pose proof (iter_xO_mul t dd) as Hiter.
    assert (Hpow : 2 ^ d * 2 ^ Z.pos dd = 2 ^ 53).
    { rewrite <- Z.pow_add_r by lia. f_equal. lia. }
    assert (Hdm : Z.pos (digits2_pos (Pos.iter xO t dd)) = 53).
    { apply digits2_pos_unique; [|lia]. rewrite Hiter. nia. }
    exists (Pos.iter xO t dd), (Z.neg dd).
    rewrite Hfexp'.
    rewrite binary_round_aux_canonical by (try done; lia).
    split; [done|]. split; [done|]. split; [lia|]. split.
    + rewrite Hiter. f_equal.
    + replace (53 + Z.neg dd) with d by lia. lia.
Qed.

Lemma Prim2SF_Number (t : positive) :
  Z.pos t < 2 ^ 53 →
  ∃ m e,
    Prim2SF (Number (Z.pos t)) = S754_finite false m e
    ∧ Z.pos (digits2_pos m) = 53
    ∧ -52 ≤ e ≤ 0
    ∧ Z.pos m = Z.pos t * 2 ^ (- e)
    ∧ 2 ^ (53 + e) ≤ 2 * Z.pos t < 2 * 2 ^ (53 + e).
Proof.
  intros Ht.
  destruct (binary_normalize_integer t Ht) as (m & e & Hn & Hd & He & Hm & Hb).
  exists m, e. unfold Number. rewrite Hn.
  rewrite Prim2SF_SF2Prim by (apply valid_binary_canonical; lia).
  done.
Qed.

Lemma SFdiv_normal (m1 m2 : positive) (e1 e2 : Z) :
  Z.pos (digits2_pos m1) = 53 → Z.pos (digits2_pos m2) = 53 →
  -52 ≤ e1 ≤ 0 → -52 ≤ e2 ≤ 0 →
  SFdiv prec emax (S754_finite false m1 e1) (S754_finite false m2 e2)
  = binary_round_aux prec emax false
      (Z.pos m1 * 2 ^ 53 / Z.pos m2) (e1 - e2 - 53)
      (new_location (Z.pos m2) ((Z.pos m1 * 2 ^ 53) mod Z.pos m2)).
Proof.
  intros Hd1 Hd2 He1 He2. unfold SFdiv, SFdiv_core_binary, Zdigits2.
  rewrite Hd1, Hd2. cbv zeta.
  replace (Z.min (fexp prec emax (53 + e1 - (53 + e2))) (e1 - e2))
    with (e1 - e2 - 53).
  2:{ unfold fexp, SpecFloat.emin. change emax with 1024. change prec with 53. lia. }
  replace (e1 - e2 - (e1 - e2 - 53)) with 53 by lia.
  rewrite Z.shiftl_mul_pow2 by lia.
  unfold Z.div, Z.modulo.
  by destruct (Z.div_eucl (Z.pos m1 * 2 ^ 53) (Z.pos m2)) as [q r].
Qed.

Lemma round_squeeze (t n k Q W P : Z) :
  0 < n → 4 * n ≤ P →
  Q * n ≤ 2 * t * P < (Q + 1) * n →
  k = (2 * t + n) / (2 * n) →
  Q - 1 ≤ W ≤ Q + 2 →
  ((2 * k - 1) * n = 2 * t → W = Q) →
  (2 * k - 1) * P ≤ W < (2 * k + 1) * P.
Proof.
  intros Hn HP HQ Hk HW Htie.
  assert (Hk1 : (2 * k - 1) * n ≤ 2 * t < (2 * k + 1) * n).
  { pose proof (Z.mul_div_le (2 * t + n) (2 * n)).
    pose proof (Z.mul_succ_div_gt (2 * t + n) (2 * n)).
    rewrite <- Hk in *. lia. }
  split.
  - destruct (Z.eq_dec ((2 * k - 1) * n) (2 * t)) as [Heq|Hne].
    + rewrite (Htie Heq).
      assert ((2 * k - 1) * P * n < (Q + 1) * n) by nia.
      assert ((2 * k - 1) * P < Q + 1) by nia. lia.
    + assert (((2 * k - 1) * P + 4) * n ≤ 2 * t * P) by nia.
      assert (((2 * k - 1) * P + 4) * n < (Q + 1) * n) by lia.
      assert ((2 * k - 1) * P + 4 < Q + 1) by nia. lia.
  - assert (2 * t * P ≤ ((2 * k + 1) * P - 4) * n) by nia.
    assert (Q * n ≤ ((2 * k + 1) * P - 4) * n) by lia.
    assert (Q ≤ (2 * k + 1) * P - 4) by nia. lia.
Qed.

Lemma new_location_zero (m : Z) : new_location m 0 = loc_Exact.
Proof. unfold new_location. by destruct (Z.even m). Qed.

Theorem Math_round_quotient (t n : Z) :
  0 < n < 2 ^ 32 → 0 ≤ t ≤ 100 * n →
  Math_round (Number t / Number n) = Math_round_div t n.
Proof.
  intros Hn Ht.
  destruct n as [|np|np]; [lia| |lia].
  destruct (Prim2SF_Number np) as (m2 & e2 & Hn2 & Hd2 & He2 & Hm2 & Hb2); [lia|].
  destruct t as [|tp|tp]; [| |lia].
  - unfold Math_round. rewrite div_spec, Hn2.
    change (Prim2SF (Number 0)) with (S754_zero false). simpl.
    unfold Math_round_div. symmetry. apply Z.div_small. lia.
  - destruct (Prim2SF_Number tp) as (m1 & e1 & Hn1 & Hd1 & He1 & Hm1 & Hb1); [lia|].
    set (t := Z.pos tp) in *. set (n := Z.pos np) in *.
    (* the exponents are at most 7 apart *)
    assert (Hrel : e1 - e2 ≤ 7).
    { destruct (Z.le_gt_cases (e1 - e2) 7) as [|Hgt]; [done|].
      assert (2 ^ (61 + e2) ≤ 2 ^ (53 + e1)) by (apply Z.pow_le_mono_r; lia).
      assert (2 ^ (61 + e2) = 256 * 2 ^ (53 + e2)).
      { replace (61 + e2) with (8 + (53 + e2)) by lia.
        rewrite Z.pow_add_r by lia. reflexivity. }
      lia. }
    set (E := 53 + e2 - e1). set (P := 2 ^ (E - 1)).
    assert (HE : 46 ≤ E ≤ 105) by (subst E; lia).
    assert (HP : 2 ^ E = 2 * P).
    { subst P. rewrite <- Z.pow_succ_r by lia. f_equal. lia. }
    assert (HPn : 4 * n ≤ P).
    { assert (2 ^ 45 ≤ P) by (subst P; apply Z.pow_le_mono_r; lia). lia. }
    (* the quotient of the mantissas is the quotient of the integers, scaled *)
    set (B := 2 ^ (- e2)) in *.
    assert (HB : 0 < B) by (subst B; apply Z.pow_pos_nonneg; lia).
    assert (Hnum : Z.pos m1 * 2 ^ 53 = 2 * t * P * B).
    { rewrite Hm1. subst B.
      replace (2 * t * P * 2 ^ (- e2)) with (t * (2 ^ E * 2 ^ (- e2))) by (rewrite HP; lia).
      rewrite <- !Z.mul_assoc, <- !Z.pow_add_r by lia. do 2 f_equal. lia. }
    set (Q := 2 * t * P / n).
    assert (HQdiv : Z.pos m1 * 2 ^ 53 / Z.pos m2 = Q).
    { rewrite Hnum, Hm2. subst Q. apply Z.div_mul_cancel_r; lia. }
    assert (HQmod : (Z.pos m1 * 2 ^ 53) mod Z.pos m2 = (2 * t * P) mod n * B).
    { rewrite Hnum, Hm2. apply Z.mul_mod_distr_r; lia. }
    assert (HQn : Q * n ≤ 2 * t * P < (Q + 1) * n).
    { pose proof (Z.mul_div_le (2 * t * P) n). pose proof (Z.mul_succ_div_gt (2 * t * P) n).
      subst Q. lia. }
    assert (HQ : 2 ^ 52 ≤ Q < 2 ^ 54).
    { pose proof (digits2_pos_bounds m1). pose proof (digits2_pos_bounds m2).
      rewrite Hd1 in *. rewrite Hd2 in *. rewrite <- HQdiv. split.
      - apply Z.div_le_lower_bound; lia.
      - apply Z.div_lt_upper_bound; lia. }
    unfold Math_round. rewrite div_spec, Hn1, Hn2. unfold SF64div.
    rewrite SFdiv_normal by done. rewrite HQdiv, HQmod.
    destruct Q as [|q|q] eqn:HQq; [lia| |lia].
    destruct (binary_round_aux_quotient q (e1 - e2 - 53)
                (new_location (Z.pos m2) ((2 * t * P) mod n * B)))
      as (mf & ef & -> & Hef & HW & Hexact); [lia | lia |].
    destruct (Z.leb_spec 0 ef) as [|_]; [lia|].
    set (s := ef - (e1 - e2 - 53)) in *.
    set (W := Z.pos mf * 2 ^ s) in *.
    assert (Hs : 0 ≤ s ≤ 2) by (subst s; lia).
    assert (Hpow_s : 0 < 2 ^ s) by (apply Z.pow_pos_nonneg; lia).
    rewrite <- (Z.div_mul_cancel_r _ _ (2 ^ s)) by (try apply Z.pow_nonzero; lia).
    replace ((2 * Z.pos mf + 2 ^ (- ef)) * 2 ^ s) with (2 * W + 2 * P).
    2:{ subst W. rewrite <- HP. replace E with (- ef + s) by (subst s E; lia).
        rewrite Z.pow_add_r by lia. lia. }
    replace (2 ^ (1 - ef) * 2 ^ s) with (4 * P).
    2:{ rewrite <- Z.pow_add_r by lia. replace (1 - ef + s) with (Z.succ E) by (subst s E; lia).
        rewrite Z.pow_succ_r by lia. lia. }
    set (k := Math_round_div t n).
    assert (Hsq : (2 * k - 1) * P ≤ W < (2 * k + 1) * P).
    { apply (round_squeeze t n k (Z.pos q) W P); try done; try lia.
      intros Htie. apply Hexact.
      - assert (Hz : (2 * t * P) mod n = 0).
        { rewrite <- Htie. replace ((2 * k - 1) * n * P) with ((2 * k - 1) * P * n) by lia.
          apply Z.mod_mul. lia. }
        rewrite Hz. apply new_location_zero.
      - assert (HQeq : Z.pos q = (2 * k - 1) * P) by nia.
        rewrite HQeq. subst P. replace (E - 1) with (Z.succ (E - 2)) by lia.
        rewrite Z.pow_succ_r by lia.
        replace ((2 * k - 1) * (2 * 2 ^ (E - 2))) with (0 + 2 * ((2 * k - 1) * 2 ^ (E - 2)))
          by lia.
        by rewrite Z.even_add_mul_2. }
    symmetry. apply (Z.div_unique _ _ _ (2 * W + 2 * P - 4 * P * k)); lia.
Qed.

(** ** Unique domains *)

Lemma Set_add_NoDup (acc : list string) (x : string) :
  NoDup acc → NoDup (Set_add acc x).
Proof.
  intros Hnd. unfold Set_add. case_decide; [done|].
  apply NoDup_app. split_and!; [done | | apply NoDup_singleton].
  intros y Hy ->%list_elem_of_singleton. done.
Qed.

Lemma elem_of_Set_add (acc : list string) (x y : string) :
  y ∈ Set_add acc x ↔ y ∈ acc ∨ y = x.
Proof.
  unfold Set_add. case_decide.
  - split; [by left | by intros [?| ->]].
  - by rewrite elem_of_app, list_elem_of_singleton.
Qed.

Lemma foldl_Set_add_spec (xs acc : list string) :
  NoDup acc →
  NoDup (foldl Set_add acc xs)
  ∧ ∀ y, y ∈ foldl Set_add acc xs ↔ y ∈ acc ∨ y ∈ xs.
Proof.
  revert acc. induction xs as [|x xs IH]; intros acc Hnd; simpl.
  - split; [done|]. intros y. rewrite elem_of_nil. tauto.
  - destruct (IH (Set_add acc x) (Set_add_NoDup _ _ Hnd)) as [Hnd' Hin].
    split; [done|]. intros y.
    rewrite Hin, elem_of_Set_add, elem_of_cons. tauto.
Qed.

Lemma Set_values_NoDup (xs : list string) : NoDup (Set_values xs).
Proof. apply foldl_Set_add_spec, NoDup_nil_2. Qed.

Lemma elem_of_Set_values (xs : list string) (y : string) :
  y ∈ Set_values xs ↔ y ∈ xs.
Proof.
  unfold Set_values.
  destruct (foldl_Set_add_spec xs [] (NoDup_nil_2)) as [_ ->].
  rewrite elem_of_nil. tauto.
Qed.

Lemma Set_values_nonempty (xs : list string) : xs ≠ [] → Set_values xs ≠ [].
Proof.
  destruct xs as [|x xs]; [done|]. intros _ Heq.
  assert (H : x ∈ Set_values (x :: xs)) by (apply elem_of_Set_values; left).
  rewrite Heq in H. by apply elem_of_nil in H.
Qed.

Lemma mapM_Normal_length {A B} (f : A → completion B) (l : list A) (ys : list B) :
  mapM f l = Normal ys → length ys = length l.
Proof.
  revert ys. induction l as [|x l IH]; intros ys; simpl.
  - by intros [= <-].
  - destruct (f x) as [y|]; simpl; [|done].
    destruct (mapM f l) as [k|]; simpl; [|done].
    intros [= <-]. simpl. f_equal. by apply IH.
Qed.

Lemma mapM_Throw {A B} (f : A → completion B) (l : list A) :
  mapM f l = Throw ↔ Exists (λ x, f x = Throw) l.
Proof.
  induction l as [|x l IH]; simpl.
  - split; [done | by intros ?%Exists_nil].
  - rewrite Exists_cons, <- IH.
    destruct (f x) as [y|]; simpl; [|by split; [left|]].
    destruct (mapM f l) as [k|]; simpl.
    + split; [done | by intros [|]].
    + split; [by right | done].
Qed.

Lemma elem_of_mapM {A B} (f : A → completion B) (l : list A) (ys : list B) (y : B) :
  mapM f l = Normal ys → y ∈ ys ↔ ∃ x, x ∈ l ∧ f x = Normal y.
Proof.
  revert ys. induction l as [|x l IH]; intros ys; simpl.
  - intros [= <-]. split; [by intros ?%elem_of_nil|].
    by intros (x & ?%elem_of_nil & _).
  - destruct (f x) as [y'|] eqn:Hx; simpl; [|done].
    destruct (mapM f l) as [k|]; simpl; [|done].
    intros [= <-]. rewrite elem_of_cons, (IH k eq_refl). split.
    + intros [->|(x' & Hin & Hy)].
      * exists x. split; [left | done].
      * exists x'. split; [by right | done].
    + intros (x' & [->|Hin]%elem_of_cons & Hy).
      * left. congruence.
      * right. by exists x'.
Qed.

Lemma uniqueDomains_Throw (w : World) (sources : list Source) :
  uniqueDomains w sources = Throw ↔ Exists (malformed w) sources.
Proof.
  unfold uniqueDomains, malformed.
  rewrite <- (mapM_Throw (λ src, URL_hostname w (url src))).
  by destruct (mapM _ sources).
Qed.

Lemma uniqueDomains_Normal (w : World) (sources : list Source) (domains : list string) :
  uniqueDomains w sources = Normal domains →
  NoDup domains
  ∧ (sources ≠ [] → domains ≠ [])
  ∧ ∀ d, d ∈ domains ↔ ∃ src, src ∈ sources ∧ URL_hostname w (url src) = Normal d.
Proof.
  unfold uniqueDomains.
  destruct (mapM _ sources) as [hostnames|] eqn:Hmap; simpl; [|done].
  intros [= <-]. split_and!.
  - apply Set_values_NoDup.
  - intros Hne. apply Set_values_nonempty. intros ->.
    apply mapM_Normal_length in Hmap. by destruct sources.
  - intros d. rewrite elem_of_Set_values. by apply elem_of_mapM.
Qed.

(** ** The loop of the network analyzer *)

Lemma two_distinct_members (l : list string) :
  NoDup l → (2 ≤ length l)%nat → ∃ x y, x ∈ l ∧ y ∈ l ∧ x ≠ y.
Proof.
  destruct l as [|x [|y l]]; simpl; [lia | lia |].
  intros Hnd _. exists x, y. split_and!; [left | right; left |].
  intros ->. apply NoDup_cons in Hnd as [Hnotin _]. apply Hnotin. left.
Qed.

Section network_loop.
Context (w : World).

Lemma cluster_snoc (a d : string) (domains : list string) :
  cluster w a (domains ++ [d])
  = cluster w a domains ++ (if decide (dns_lookup w d = Normal a) then [d] else []).
Proof. unfold cluster. by rewrite filter_app, (filter_singleton _ d []). Qed.

Lemma cluster_snoc_other (a d : string) (domains : list string) :
  dns_lookup w d ≠ Normal a → cluster w a (domains ++ [d]) = cluster w a domains.
Proof. intros H. rewrite cluster_snoc. case_decide; [done | apply app_nil_r]. Qed.

Lemma cluster_snoc_same (a d : string) (domains : list string) :
  dns_lookup w d = Normal a → cluster w a (domains ++ [d]) = cluster w a domains ++ [d].
Proof. intros H. rewrite cluster_snoc. by case_decide. Qed.

Lemma network_step_unresolved (st : NetworkState) (d : string) :
  (∀ a, dns_lookup w d = Normal a → inherited a = true) →
  network_step w st d = st.
Proof.
  intros H. unfold network_step.
  destruct (dns_lookup w d) as [a|]; simpl; [|done]. by rewrite (H a eq_refl).
Qed.

Lemma scan_invariant_skip (domains : list string) (st : NetworkState) (d : string) :
  (∀ a, dns_lookup w d = Normal a → inherited a = true) →
  scan_invariant w domains st → scan_invariant w (domains ++ [d]) st.
Proof.
  intros Hd [Hmap Hshared]. split.
  - intros a. rewrite Hmap. destruct (inherited a) eqn:Ha; [done|].
    rewrite cluster_snoc_other; [done|]. intros H. apply Hd in H. congruence.
  - intros d'. rewrite Hshared. split; intros (a & Ha & Hin & Hlen); exists a.
    + rewrite cluster_snoc_other; [done|]. intros H. apply Hd in H. congruence.
    + rewrite cluster_snoc_other in Hin, Hlen; [done| |];
        intros H; apply Hd in H; congruence.
Qed.

Lemma network_scan_invariant (domains : list string) :
  scan_invariant w domains (network_scan w domains).
Proof.
  induction domains as [|d domains IH] using rev_ind.
  - split.
    + intros a. simpl. rewrite lookup_empty. by destruct (inherited a).
    + intros d. simpl. split; [by intros ?%not_elem_of_empty|].
      by intros (a & _ & ?%elem_of_nil & _).
  - unfold network_scan. rewrite foldl_snoc. fold (network_scan w domains).
    set (st := network_scan w domains) in *.
    destruct (dns_lookup w d) as [a0|] eqn:Hd.
    2:{ rewrite network_step_unresolved by (intros a; congruence).
        apply scan_invariant_skip; [intros a; congruence | done]. }
    destruct (inherited a0) eqn:Hinh.
    { rewrite network_step_unresolved by (intros a; congruence).
      apply scan_invariant_skip; [intros a; congruence | done]. }
    destruct IH as [Hmap Hshared].
    unfold network_step. rewrite Hd. simpl. rewrite Hinh.
    rewrite (Hmap a0), Hinh.
    assert (Hother : ∀ a, a ≠ a0 →
              cluster w a (domains ++ [d]) = cluster w a domains).
    { intros a Ha. apply cluster_snoc_other. congruence. }
    pose proof (cluster_snoc_same a0 d domains Hd) as Hsame.
    destruct (cluster w a0 domains) as [|c l] eqn:Hc;
      split; cbn [try_catch ipMap sharedIpDomains].
    + intros a. destruct (decide (a = a0)) as [->|Hne].
      * by rewrite lookup_insert_eq, Hinh, Hsame.
      * rewrite lookup_insert_ne by done. by rewrite Hmap, Hother.
    + intros d'. rewrite Hshared. split; intros (a & Ha & Hin & Hlen); exists a.
      * destruct (decide (a = a0)) as [->|Hne].
        { rewrite Hc in Hin. by apply elem_of_nil in Hin. }
        by rewrite Hother.
      * destruct (decide (a = a0)) as [->|Hne].
        { rewrite Hsame in Hlen. simpl in Hlen. lia. }
        by rewrite Hother in Hin, Hlen.
    + intros a. destruct (decide (a = a0)) as [->|Hne].
      * by rewrite lookup_insert_eq, Hinh, Hsame.
      * rewrite lookup_insert_ne by done. by rewrite Hmap, Hother.
    + intros d'. rewrite elem_of_union, elem_of_list_to_set, Hshared. split.
      * intros [(a & Ha & Hin & Hlen)|Hin].
        -- exists a. destruct (decide (a = a0)) as [->|Hne].
           ++ rewrite Hsame. split_and!; [done | | rewrite length_app; simpl; lia].
              rewrite Hc in Hin. apply elem_of_app. by left.
           ++ by rewrite Hother.
        -- exists a0. rewrite Hsame. split_and!; [done | done |].
           rewrite length_app. simpl. lia.
      * intros (a & Ha & Hin & Hlen). destruct (decide (a = a0)) as [->|Hne].
        -- right. by rewrite Hsame in Hin.
        -- left. exists a. by rewrite Hother in Hin, Hlen.
Qed.

Lemma elem_of_cluster (a d : string) (domains : list string) :
  d ∈ cluster w a domains ↔ dns_lookup w d = Normal a ∧ d ∈ domains.
Proof. unfold cluster. by rewrite list_elem_of_filter. Qed.

(** A flagged domain always has a partner: another analysed domain with the
    same address. *)
Lemma shared_has_partner (domains : list string) (d : string) :
  NoDup domains →
  d ∈ sharedIpDomains (network_scan w domains) →
  ∃ a d', d' ∈ domains ∧ d' ≠ d
          ∧ dns_lookup w d = Normal a ∧ dns_lookup w d' = Normal a.
Proof.
  intros Hnd Hd.
  apply (network_scan_invariant domains) in Hd as (a & _ & Hin & Hlen).
  apply elem_of_cluster in Hin as [Hda _].
  destruct (two_distinct_members (cluster w a domains)) as (x & y & Hx & Hy & Hxy);
    [by apply NoDup_filter | done |].
  apply elem_of_cluster in Hx as [Hxa Hx], Hy as [Hya Hy].
  exists a. destruct (decide (x = d)) as [->|Hxd].
  - exists y. split_and!; [done | congruence | done | done].
  - by exists x.
Qed.

End network_loop.

(** C3.  Let [N >= 2] of the unique domains resolve to one address, every
    other unique domain failing to resolve or resolving to an address of its
    own (an address being an IP literal, never the name of a property that
    objects inherit).  Then [sharedIpDomains] is exactly the set of those [N]
    domains, its size is [N], and the analyzer returns [max 0 (100 - 20 * N)];
    no domain outside the cluster is flagged, and in general a flagged domain
    always shares its address with another analysed domain. *)
Theorem network_shared_ip_cluster
    (w : World) (sources : list Source) (domains : list string)
    (ip : string) (N : nat) :
  sources ≠ [] →
  uniqueDomains w sources = Normal domains →
  inherited ip = false →
  (2 ≤ N)%nat →
  length (cluster w ip domains) = N →
  (∀ a d1 d2, d1 ∈ domains → d2 ∈ domains → d1 ≠ d2 →
              dns_lookup w d1 = Normal a → dns_lookup w d2 = Normal a → a = ip) →
  let st := network_scan w domains in
  size (sharedIpDomains st) = N
  ∧ sharedIpDomains st = list_to_set (cluster w ip domains)
  ∧ (∀ d, dns_lookup w d ≠ Normal ip → d ∉ sharedIpDomains st)
  ∧ (∀ d, d ∈ sharedIpDomains st →
          ∃ a d', d' ∈ domains ∧ d' ≠ d
                  ∧ dns_lookup w d = Normal a ∧ dns_lookup w d' = Normal a)
  ∧ analyzeNetwork w sources
    = Normal {| score := Z.max 0 (100 - 20 * Z.of_nat N);
                isBiased := None;
                details := pretty N +:+ " domains may be part of a shared network." |}.
Proof.
  intros Hne Huniq Hip HN Hlen Hdistinct st.
  destruct (uniqueDomains_Normal w sources domains Huniq) as (Hnd & _ & _).
  destruct (network_scan_invariant w domains) as [_ Hshared]. fold st in Hshared.
  assert (Hset : sharedIpDomains st = list_to_set (cluster w ip domains)).
  { apply set_eq. intros d. rewrite elem_of_list_to_set, Hshared. split.
    - intros (a & Ha & Hin & Hl).
      destruct (two_distinct_members (cluster w a domains)) as (x & y & Hx & Hy & Hxy);
        [by apply NoDup_filter | done |].
      apply elem_of_cluster in Hx as [Hxa Hx], Hy as [Hya Hy].
      by rewrite <- (Hdistinct a x y).
    - intros Hin. exists ip. split_and!; [done | done | lia]. }
  assert (Hsize : size (sharedIpDomains st) = N).
  { rewrite Hset, size_list_to_set; [done|]. by apply NoDup_filter. }
  split_and!; [done | done | | intros d Hd; by apply shared_has_partner |].
  - intros d Hd. rewrite Hset, elem_of_list_to_set, elem_of_cluster. tauto.
  - unfold analyzeNetwork. destruct sources as [|src sources]; [done|].
    rewrite Huniq. simpl. fold st. rewrite Hsize. unfold network_score.
    do 3 f_equal. lia.
Qed.

(** Two of four unique domains on one address: both are flagged, the score
    is 60. *)
Lemma network_shared_ip_cluster_witness :
  let domains := ["a.example.com"; "b.example.com"; "c.example.com"; "d.example.com"] in
  let st := network_scan shared_hosting_world domains in
  size (sharedIpDomains st) = 2%nat
  ∧ sharedIpDomains st = list_to_set (cluster shared_hosting_world "203.0.113.7" domains)
  ∧ (∀ d, dns_lookup shared_hosting_world d ≠ Normal "203.0.113.7" →
          d ∉ sharedIpDomains st)
  ∧ (∀ d, d ∈ sharedIpDomains st →
          ∃ a d', d' ∈ domains ∧ d' ≠ d
                  ∧ dns_lookup shared_hosting_world d = Normal a
                  ∧ dns_lookup shared_hosting_world d' = Normal a)
  ∧ analyzeNetwork shared_hosting_world shared_hosting_sources
    = Normal {| score := 60; isBiased := None;
                details := "2 domains may be part of a shared network." |}.
Proof.
  apply (network_shared_ip_cluster shared_hosting_world shared_hosting_sources
           ["a.example.com"; "b.example.com"; "c.example.com"; "d.example.com"]
           "203.0.113.7" 2).
  - discriminate.
  - reflexivity.
  - reflexivity.
  - lia.
  - reflexivity.
  - intros a d1 d2 H1 H2 Hne Hd1 Hd2.
    repeat (apply elem_of_cons in H1 as [->|H1]); try (by apply elem_of_nil in H1);
    repeat (apply elem_of_cons in H2 as [->|H2]); try (by apply elem_of_nil in H2);
      vm_compute in Hd1, Hd2; congruence.
Defined.

(** ** Binary64 comparisons *)

Lemma SFcompare_antisym (x y : spec_float) :
  SFcompare y x = CompOpp <$> SFcompare x y.
Proof.
  destruct x as [sx|sx| |sx mx ex], y as [sy|sy| |sy my ey]; simpl;
    try reflexivity; try (by destruct sx); try (by destruct sy);
    try (by destruct sx, sy).
  pose proof (Pos.compare_cont_antisym mx my Eq) as Hm. simpl in Hm.
  destruct sx, sy; simpl; try reflexivity; f_equal;
    rewrite (Z.compare_antisym ex ey), <- Hm;
    by destruct (ex ?= ey).
Qed.

Lemma leb_ltb_false (x y : float) :
  PrimFloat.leb x y = true → PrimFloat.ltb y x = false.
Proof.
  rewrite leb_spec, ltb_spec. unfold SFleb, SFltb.
  rewrite (SFcompare_antisym (Prim2SF x) (Prim2SF y)).
  by destruct (SFcompare (Prim2SF x) (Prim2SF y)) as [[]|].
Qed.

Lemma leb_1000_of_leb_100000 (c : float) :
  PrimFloat.leb 100000 c = true → PrimFloat.leb 1000 c = true.
Proof.
  rewrite !leb_spec. unfold SFleb.
  change (Prim2SF 100000) with (S754_finite false 6871947673600000 (-36)).
  change (Prim2SF 1000) with (S754_finite false 8796093022208000 (-43)).
  destruct (Prim2SF c) as [s|s| |s m e]; cbn -[Z.compare Pos.compare_cont].
  - done.
  - by destruct s.
  - done.
  - destruct s; [done|].
    assert (Hlow : -36 ≤ e → (-43 ?= e) = Lt) by (intros; apply Z.compare_lt_iff; lia).
    destruct (Z.compare_spec (-36) e) as [Heq|Hlt|Hgt].
    + intros _. rewrite Hlow; [done | lia].
    + intros _. rewrite Hlow; [done | lia].
    + done.
Qed.

Lemma truthy_of_leb_1000 (c : float) :
  PrimFloat.leb 1000 c = true → is_zero_or_nan c = false.
Proof.
  unfold is_zero_or_nan. rewrite leb_spec, !FloatAxioms.eqb_spec. unfold SFleb, SFeqb.
  change (Prim2SF 1000) with (S754_finite false 8796093022208000 (-43)).
  change (Prim2SF 0) with (S754_zero false).
  destruct (Prim2SF c) as [s|s| |s m e]; cbn -[Z.compare Pos.compare_cont].
  - done.
  - by destruct s.
  - done.
  - destruct s; [done|]. intros _.
    by rewrite Z.compare_refl, Pos.compare_cont_refl.
Qed.

(** ** The authority analyzer *)

Section authority.
Context (w : World) (searchApiKey : string).

Lemma authority_bucket_number (data info : value) (count : float) :
  Get data "search_information" = Normal info →
  GetOptional info "total_results" = Normal (VNumber count) →
  authority_bucket w data
  = Normal (if is_zero_or_nan count || PrimFloat.ltb count 1000 then (20, 1%nat)
            else if PrimFloat.ltb count 100000 then (70, 0%nat)
            else (100, 0%nat)).
Proof.
  intros Hinfo Hcount. unfold authority_bucket. rewrite Hinfo. simpl.
  rewrite Hcount. simpl. unfold or_zero, less_than. simpl.
  destruct (is_zero_or_nan count); simpl; [done|].
  by destruct (PrimFloat.ltb count 1000), (PrimFloat.ltb count 100000).
Qed.

Lemma authority_bucket_falsy (data info v : value) :
  Get data "search_information" = Normal info →
  GetOptional info "total_results" = Normal v →
  ToBoolean v = false →
  authority_bucket w data = Normal (20, 1%nat).
Proof.
  intros Hinfo Hv Hfalsy. unfold authority_bucket. rewrite Hinfo. simpl.
  rewrite Hv. simpl. unfold or_zero. by rewrite Hfalsy.
Qed.

Lemma authority_points_cases (d : string) :
  authority_points w searchApiKey d = (20, 1%nat)
  ∨ authority_points w searchApiKey d = (50, 0%nat)
  ∨ authority_points w searchApiKey d = (70, 0%nat)
  ∨ authority_points w searchApiKey d = (100, 0%nat).
Proof.
  unfold authority_points.
  destruct (fetch_search w searchApiKey d) as [response|]; simpl; [|auto].
  destruct (json response) as [data|]; simpl; [|auto].
  unfold authority_bucket.
  destruct (Get data "search_information") as [info|]; simpl; [|auto].
  destruct (GetOptional info "total_results") as [v|]; simpl; [|auto].
  destruct (less_than w (or_zero v) 1000); simpl; [auto|].
  destruct (less_than w (or_zero v) 100000); simpl; auto.
Qed.

Lemma Zsum_cons (x : Z) (l : list Z) : Zsum (x :: l) = x + Zsum l.
Proof. reflexivity. Qed.

Lemma authority_fold (domains : list string) (acc : Z * nat) :
  foldl (authority_step w searchApiKey) acc domains
  = (acc.1 + Zsum ((λ d, (authority_points w searchApiKey d).1) <$> domains),
     (acc.2 + low_count w searchApiKey domains)%nat).
Proof.
  revert acc. induction domains as [|d domains IH]; intros [total low]; simpl.
  - f_equal; lia.
  - rewrite IH. unfold authority_step.
    destruct (authority_points w searchApiKey d) as [points l]. simpl.
    f_equal; [by rewrite Z.add_assoc | lia].
Qed.

Lemma contributions_bounds (domains : list string) :
  let total := Zsum ((λ d, (authority_points w searchApiKey d).1) <$> domains) in
  20 * Z.of_nat (length domains) ≤ total ∧ total ≤ 100 * Z.of_nat (length domains).
Proof.
  induction domains as [|d domains IH]; cbn zeta in *; [simpl; lia|].
  rewrite fmap_cons, Zsum_cons, length_cons, Nat2Z.inj_succ.
  destruct (authority_points_cases d) as [H|[H|[H|H]]];
    rewrite H; cbn [fst]; lia.
Qed.

Lemma analyzeSimplifiedEEAT_computed (sources : list Source) (domains : list string) :
  configured (SEARCH_API_KEY w) = Some searchApiKey →
  sources ≠ [] →
  uniqueDomains w sources = Normal domains →
  analyzeSimplifiedEEAT w sources
  = Normal {| score := Math_round_div
                         (Zsum ((λ d, (authority_points w searchApiKey d).1) <$> domains))
                         (Z.of_nat (length domains));
              isBiased := None;
              details := pretty (low_count w searchApiKey domains)
                         +:+ " domains have very low authority." |}.
Proof.
  intros Hkey Hne Huniq. unfold analyzeSimplifiedEEAT. rewrite Hkey.
  destruct sources as [|src sources]; [done|].
  rewrite Huniq. simpl. by rewrite authority_fold.
Qed.

End authority.

Lemma analyzeSimplifiedEEAT_Throw (w : World) (sources : list Source) :
  analyzeSimplifiedEEAT w sources = Throw → Exists (malformed w) sources.
Proof.
  unfold analyzeSimplifiedEEAT.
  destruct (configured (SEARCH_API_KEY w)) as [searchApiKey|]; [|done].
  destruct sources as [|src sources]; [done|].
  destruct (uniqueDomains w (src :: sources)) as [domains|] eqn:Huniq; simpl.
  - by destruct (foldl _ _ domains).
  - intros _. by apply uniqueDomains_Throw.
Qed.

Lemma analyzeSimplifiedEEAT_total (w : World) (sources : list Source) :
  Forall (λ src, ¬ malformed w src) sources →
  ∃ r, analyzeSimplifiedEEAT w sources = Normal r.
Proof.
  intros Hall.
  destruct (analyzeSimplifiedEEAT w sources) as [r|] eqn:H; [by exists r|].
  apply analyzeSimplifiedEEAT_Throw, Exists_exists in H as (src & Hin & Hbad).
  rewrite Forall_forall in Hall. by destruct (Hall src Hin).
Qed.

Lemma analyzeSimplifiedEEAT_score (w : World) (sources : list Source) (r : AnalyzerResult) :
  analyzeSimplifiedEEAT w sources = Normal r → 20 ≤ score r ≤ 100.
Proof.
  destruct (configured (SEARCH_API_KEY w)) as [searchApiKey|] eqn:Hkey.
  - destruct (decide (sources = [])) as [->|Hne].
    + unfold analyzeSimplifiedEEAT. rewrite Hkey. intros [= <-]. simpl. lia.
    + destruct (uniqueDomains w sources) as [domains|] eqn:Huniq.
      * rewrite (analyzeSimplifiedEEAT_computed w searchApiKey sources domains)
          by done.
        intros [= <-]. simpl.
        destruct (uniqueDomains_Normal w sources domains Huniq) as (_ & Hnonempty & _).
        apply Math_round_div_bounds.
        -- specialize (Hnonempty Hne). destruct domains; [done | simpl; lia].
        -- pose proof (contributions_bounds w searchApiKey domains). simpl in *. lia.
      * unfold analyzeSimplifiedEEAT. rewrite Hkey.
        destruct sources; [done|]. by rewrite Huniq.
  - unfold analyzeSimplifiedEEAT. rewrite Hkey. intros [= <-]. simpl. lia.
Qed.

(** C4.  With the search credential configured and at least one source, a
    domain whose reported result count is below 1000 contributes 20 points,
    one from 1000 and below 100000 contributes 70, one from 100000 on
    contributes 100, and one whose lookup fails contributes 50; the returned
    score is the mean of the contributions of the unique domains rounded to
    the nearest integer, which is also what [Math.round] makes of the
    binary64 quotient. *)
Theorem authority_contributions_and_mean
    (w : World) (searchApiKey : string) (sources : list Source) (domains : list string) :
  configured (SEARCH_API_KEY w) = Some searchApiKey →
  sources ≠ [] →
  uniqueDomains w sources = Normal domains →
  let points d := (authority_points w searchApiKey d).1 in
  (∀ d response data info count,
      fetch_search w searchApiKey d = Normal response →
      json response = Normal data →
      Get data "search_information" = Normal info →
      GetOptional info "total_results" = Normal (VNumber count) →
      (PrimFloat.ltb count 1000 = true → points d = 20)
      ∧ (PrimFloat.leb 1000 count = true → PrimFloat.ltb count 100000 = true →
         points d = 70)
      ∧ (PrimFloat.leb 100000 count = true → points d = 100))
  ∧ (∀ d, fetch_search w searchApiKey d = Throw → points d = 50)
  ∧ (∀ d response,
        fetch_search w searchApiKey d = Normal response → json response = Throw →
        points d = 50)
  ∧ ∃ r, analyzeSimplifiedEEAT w sources = Normal r
         ∧ let total := Zsum (points <$> domains) in
           let n := Z.of_nat (length domains) in
           0 < n
           ∧ score r = Math_round_div total n
           ∧ (n < 2 ^ 32 → score r = Math_round (Number total / Number n))
           ∧ 2 * total - n < 2 * n * score r
           ∧ 2 * n * score r ≤ 2 * total + n.
Proof.
  intros Hkey Hne Huniq points. split_and!.
  - intros d response data info count Hfetch Hjson Hinfo Hcount.
    assert (Hpoints : points d
                      = (if is_zero_or_nan count || PrimFloat.ltb count 1000
                         then (20, 1%nat)
                         else if PrimFloat.ltb count 100000 then (70, 0%nat)
                         else (100, 0%nat)).1).
    { unfold points, authority_points. rewrite Hfetch. simpl. rewrite Hjson. simpl.
      by rewrite (authority_bucket_number w data info count). }
    rewrite Hpoints. split_and!.
    + intros ->. by rewrite orb_true_r.
    + intros Hge Hlt.
      by rewrite (truthy_of_leb_1000 count Hge), (leb_ltb_false _ _ Hge), Hlt.
    + intros Hge. pose proof (leb_1000_of_leb_100000 count Hge) as Hge'.
      by rewrite (truthy_of_leb_1000 count Hge'), (leb_ltb_false _ _ Hge'),
        (leb_ltb_false _ _ Hge).
  - intros d Hfetch. unfold points, authority_points. by rewrite Hfetch.
  - intros d response Hfetch Hjson. unfold points, authority_points.
    rewrite Hfetch. simpl. by rewrite Hjson.
  - eexists. split; [by apply analyzeSimplifiedEEAT_computed|].
    cbn [score]. cbn zeta.
    destruct (uniqueDomains_Normal w sources domains Huniq) as (_ & Hnonempty & _).
    assert (Hn : 0 < Z.of_nat (length domains)).
    { specialize (Hnonempty Hne). destruct domains; [done | simpl; lia]. }
    pose proof (Math_round_div_nearest (Zsum (points <$> domains)) _ Hn) as Hnear.
    cbn zeta in Hnear. unfold points in *.
    pose proof (contributions_bounds w searchApiKey domains) as Hbounds.
    cbn zeta in Hbounds.
    split_and!; [done | done | | lia | lia].
    intros Hlen. symmetry. apply Math_round_quotient; lia.
Qed.

(** Four domains with contributions 20, 70, 100 and 50. *)
Lemma authority_contributions_and_mean_witness :
  let w := authority_world in
  let points d := (authority_points w "serp-key" d).1 in
  let domains := ["low.example"; "mid.example"; "high.example"; "down.example"] in
  (∀ d response data info count,
      fetch_search w "serp-key" d = Normal response →
      json response = Normal data →
      Get data "search_information" = Normal info →
      GetOptional info "total_results" = Normal (VNumber count) →
      (PrimFloat.ltb count 1000 = true → points d = 20)
      ∧ (PrimFloat.leb 1000 count = true → PrimFloat.ltb count 100000 = true →
         points d = 70)
      ∧ (PrimFloat.leb 100000 count = true → points d = 100))
  ∧ (∀ d, fetch_search w "serp-key" d = Throw → points d = 50)
  ∧ (∀ d response,
        fetch_search w "serp-key" d = Normal response → json response = Throw →
        points d = 50)
  ∧ ∃ r, analyzeSimplifiedEEAT w authority_sources = Normal r
         ∧ let total := Zsum (points <$> domains) in
           let n := Z.of_nat (length domains) in
           0 < n
           ∧ score r = Math_round_div total n
           ∧ (n < 2 ^ 32 → score r = Math_round (Number total / Number n))
           ∧ 2 * total - n < 2 * n * score r
           ∧ 2 * n * score r ≤ 2 * total + n.
Proof.
  apply (authority_contributions_and_mean authority_world "serp-key" authority_sources
           ["low.example"; "mid.example"; "high.example"; "down.example"]).
  - reflexivity.
  - discriminate.
  - reflexivity.
Defined.

(** Their mean is 60. *)
Example authority_example_score :
  points_of_example = [20; 70; 100; 50]
  ∧ analyzeSimplifiedEEAT authority_world authority_sources
    = Normal {| score := 60; isBiased := None;
                details := "1 domains have very low authority." |}.
Proof. split; reflexivity. Qed.

(** ** Failures of the search call *)

(** C6, as stated, fails: a refusal with status 401 and a JSON error body, and
    a result page without [total_results], are not treated as failures; each
    is read as a count of 0 and contributes 20 points to the low bucket. *)
Lemma authority_unexpected_shape_scores_20 :
  fetch_search refusing_world "serp-key" "denied.example"
  = Normal {| status := 401;
              json := Normal (VObject [("error", VString "Invalid API key.")]) |}
  ∧ authority_points refusing_world "serp-key" "denied.example" = (20, 1%nat)
  ∧ authority_points refusing_world "serp-key" "bare.example" = (20, 1%nat)
  ∧ analyzeSimplifiedEEAT refusing_world [ {| url := "http://denied.example/" |} ]
    = Normal {| score := 20; isBiased := None;
                details := "1 domains have very low authority." |}.
Proof. split_and!; reflexivity. Qed.

(** C6, amended.  A domain whose search call raises inside the [try] (the
    request is rejected, the body is not JSON, or the body is the JSON value
    [null]) contributes exactly the fallback of 50 points and nothing is
    propagated: the analyzer still returns a result.  The status of the
    response is not inspected, and a body that parses but carries no
    [total_results] (or a falsy one) is read as a count of 0 and contributes
    20 points. *)
Theorem authority_failure_fallback (w : World) (searchApiKey d : string) :
  (fetch_search w searchApiKey d = Throw →
   authority_points w searchApiKey d = (50, 0%nat))
  ∧ (∀ response,
        fetch_search w searchApiKey d = Normal response → json response = Throw →
        authority_points w searchApiKey d = (50, 0%nat))
  ∧ (∀ response,
        fetch_search w searchApiKey d = Normal response →
        json response = Normal VNull →
        authority_points w searchApiKey d = (50, 0%nat))
  ∧ (∀ response data info v,
        fetch_search w searchApiKey d = Normal response →
        json response = Normal data →
        Get data "search_information" = Normal info →
        GetOptional info "total_results" = Normal v →
        ToBoolean v = false →
        authority_points w searchApiKey d = (20, 1%nat))
  ∧ (∀ sources,
        Forall (λ src, ¬ malformed w src) sources →
        ∃ r, analyzeSimplifiedEEAT w sources = Normal r).
Proof.
  unfold authority_points. split_and!.
  - by intros ->.
  - intros response -> Hjson. simpl. by rewrite Hjson.
  - intros response -> Hjson. simpl. by rewrite Hjson.
  - intros response data info v -> Hjson Hinfo Hv Hfalsy. simpl. rewrite Hjson. simpl.
    by rewrite (authority_bucket_falsy w data info v).
  - apply analyzeSimplifiedEEAT_total.
Qed.

(** A rejected request, a body that is not JSON, a [null] body and a result
    page without a count. *)
Lemma authority_failure_fallback_witness :
  authority_points refusing_world "serp-key" "down.example" = (50, 0%nat)
  ∧ authority_points refusing_world "serp-key" "html.example" = (50, 0%nat)
  ∧ authority_points refusing_world "serp-key" "null.example" = (50, 0%nat)
  ∧ authority_points refusing_world "serp-key" "bare.example" = (20, 1%nat).
Proof.
  split_and!.
  - apply (authority_failure_fallback refusing_world "serp-key" "down.example").
    reflexivity.
  - apply (proj1 (proj2 (authority_failure_fallback _ "serp-key" "html.example"))
             {| status := 502; json := Throw |}); reflexivity.
  - apply (proj1 (proj2 (proj2 (authority_failure_fallback _ "serp-key" "null.example")))
             {| status := 200; json := Normal VNull |}); reflexivity.
  - apply (proj1 (proj2 (proj2 (proj2
             (authority_failure_fallback refusing_world "serp-key" "bare.example"))))
             {| status := 200;
                json := Normal (VObject [("search_information",
                                          VObject [("query_displayed",
                                                    VString "site:bare.example")])]) |}
             (VObject [("search_information",
                        VObject [("query_displayed", VString "site:bare.example")])])
             (VObject [("query_displayed", VString "site:bare.example")])
             VUndefined); reflexivity.
Defined.

(** ** The floor of the authority score *)

(** C10.  With the search credential configured and at least one source, every
    per-domain contribution is one of 20, 50, 70 and 100, so a score that the
    authority analyzer returns is at least 20 (and at most 100), and it does
    return one when the URLs parse; the network analyzer, in contrast, reaches
    0 as soon as five domains share an address. *)
Theorem authority_score_at_least_20
    (w : World) (searchApiKey : string) (sources : list Source) :
  configured (SEARCH_API_KEY w) = Some searchApiKey →
  sources ≠ [] →
  (∀ d, (authority_points w searchApiKey d).1 ∈ [20; 50; 70; 100])
  ∧ (∀ r, analyzeSimplifiedEEAT w sources = Normal r → 20 ≤ score r ∧ score r ≤ 100)
  ∧ (Forall (λ src, ¬ malformed w src) sources →
     ∃ r, analyzeSimplifiedEEAT w sources = Normal r ∧ 20 ≤ score r)
  ∧ analyzeNetwork crowded_world crowded_sources
    = Normal {| score := 0; isBiased := None;
                details := "5 domains may be part of a shared network." |}.
Proof.
  intros Hkey Hne. split_and!.
  - intros d.
    destruct (authority_points_cases w searchApiKey d) as [H|[H|[H|H]]];
      rewrite H; simpl; set_solver.
  - intros r Hr. by apply (analyzeSimplifiedEEAT_score w sources).
  - intros Hall.
    destruct (analyzeSimplifiedEEAT_total w sources Hall) as [r Hr].
    exists r. split; [done|]. by apply (analyzeSimplifiedEEAT_score w sources).
  - reflexivity.
Qed.

(** The four domains of [authority_world]. *)
Lemma authority_score_at_least_20_witness :
  (∀ d, (authority_points authority_world "serp-key" d).1 ∈ [20; 50; 70; 100])
  ∧ (∀ r, analyzeSimplifiedEEAT authority_world authority_sources = Normal r →
          20 ≤ score r ∧ score r ≤ 100)
  ∧ (Forall (λ src, ¬ malformed authority_world src) authority_sources →
     ∃ r, analyzeSimplifiedEEAT authority_world authority_sources = Normal r
          ∧ 20 ≤ score r)
  ∧ analyzeNetwork crowded_world crowded_sources
    = Normal {| score := 0; isBiased := None;
                details := "5 domains may be part of a shared network." |}.
Proof.
  apply (authority_score_at_least_20 authority_world "serp-key" authority_sources).
  - reflexivity.
  - discriminate.
Defined.

(** ** Score ranges of the analyzers *)

Lemma classify_response_score (data : value) (r : AnalyzerResult) :
  classify_response data = Normal r → score r = 50 ∨ score r = 100.
Proof.
  unfold classify_response. intros H.
  apply bind_Normal in H as (choices & _ & H).
  apply bind_Normal in H as (choice & _ & H).
  apply bind_Normal in H as (message & _ & H).
  apply bind_Normal in H as (content & _ & H).
  apply bind_Normal in H as (result & _ & H).
  injection H as <-. simpl. destruct (includes result "biased"); auto.
Qed.

Lemma analyzeQueryFraming_score (w : World) (userQuery : string) :
  score (analyzeQueryFraming w userQuery) = 50
  ∨ score (analyzeQueryFraming w userQuery) = 100.
Proof.
  unfold analyzeQueryFraming.
  destruct (configured (DEEPSEEK_API_KEY w)) as [apiKey|]; [|by right].
  destruct (fetch_chat w apiKey (framing_prompt userQuery)) as [response|];
    simpl; [|by right].
  destruct (json response) as [data|]; simpl; [|by right].
  destruct (classify_response data) as [r|] eqn:Hr; simpl; [|by right].
  by apply (classify_response_score data).
Qed.

Lemma network_score_steps (shared : gset string) :
  ∃ k, 0 ≤ k ≤ 5 ∧ network_score shared = 20 * k.
Proof.
  unfold network_score. exists (Z.max 0 (5 - Z.of_nat (size shared))). lia.
Qed.

Lemma analyzeNetwork_score (w : World) (sources : list Source) (r : AnalyzerResult) :
  analyzeNetwork w sources = Normal r → ∃ k, 0 ≤ k ≤ 5 ∧ score r = 20 * k.
Proof.
  unfold analyzeNetwork. destruct sources as [|src sources].
  - intros [= <-]. exists 5. simpl. lia.
  - destruct (uniqueDomains w (src :: sources)) as [domains|]; simpl; [|done].
    intros [= <-]. apply network_score_steps.
Qed.

Lemma analyzeNetwork_Throw (w : World) (sources : list Source) :
  analyzeNetwork w sources = Throw ↔ Exists (malformed w) sources.
Proof.
  unfold analyzeNetwork. destruct sources as [|src sources].
  - split; [done | by intros ?%Exists_nil].
  - rewrite <- uniqueDomains_Throw.
    by destruct (uniqueDomains w (src :: sources)).
Qed.

(** ** The request handler *)

Lemma handler_Throw (w : World) (userQuery : string) (citedSources : list Source) :
  handler w userQuery citedSources = Throw ↔ Exists (malformed w) citedSources.
Proof.
  unfold handler. split.
  - destruct (analyzeNetwork w citedSources) as [na|] eqn:Hna; simpl.
    + destruct (analyzeSimplifiedEEAT w citedSources) as [ea|] eqn:Hea; simpl; [done|].
      intros _. by apply analyzeSimplifiedEEAT_Throw.
    + intros _. by apply analyzeNetwork_Throw.
  - intros Hbad. apply analyzeNetwork_Throw in Hbad. by rewrite Hbad.
Qed.

Lemma handler_Normal (w : World) (userQuery : string) (citedSources : list Source)
    (r : OverallResult) :
  handler w userQuery citedSources = Normal r →
  ∃ na ea,
    analyzeNetwork w citedSources = Normal na
    ∧ analyzeSimplifiedEEAT w citedSources = Normal ea
    ∧ let results := {| queryFraming := analyzeQueryFraming w userQuery;
                        networkAnalysis := na; simplifiedEEAT := ea |} in
      r = {| overallScore := Math_round (totalScore results);
             summary := summarize (Math_round (totalScore results)) results;
             alternativeAnswer := alternative_answer_text;
             metrics := results |}.
Proof.
  unfold handler. intros H.
  apply bind_Normal in H as (na & Hna & H).
  apply bind_Normal in H as (ea & Hea & H).
  injection H as <-. by exists na, ea.
Qed.

Lemma overall_of_scores (results : Metrics) :
  score (queryFraming results) = 50 ∨ score (queryFraming results) = 100 →
  (∃ k, 0 ≤ k ≤ 5 ∧ score (networkAnalysis results) = 20 * k) →
  20 ≤ score (simplifiedEEAT results) ≤ 100 →
  Math_round (totalScore results)
  = (score (queryFraming results) + 5 * score (networkAnalysis results)
     + 4 * score (simplifiedEEAT results) + 5) / 10.
Proof.
  intros Hq Hn He.
  apply (Math_round_weighted_total (score (queryFraming results))
           (score (networkAnalysis results)) (score (simplifiedEEAT results)));
    [done | done | lia].
Qed.

Lemma overallScore_bounds
    (w : World) (userQuery : string) (citedSources : list Source) (r : OverallResult) :
  handler w userQuery citedSources = Normal r →
  0 ≤ overallScore r ∧ overallScore r ≤ 100.
Proof.
  intros H.
  apply handler_Normal in H as (na & ea & Hna & Hea & ->). cbn [overallScore].
  pose proof (analyzeQueryFraming_score w userQuery) as Hq.
  pose proof (analyzeNetwork_score w citedSources na Hna) as Hn.
  pose proof (analyzeSimplifiedEEAT_score w citedSources ea Hea) as He.
  rewrite overall_of_scores by done. cbn [queryFraming networkAnalysis simplifiedEEAT].
  destruct Hn as (k & Hk & ->).
  split.
  - apply Z.div_pos; lia.
  - apply Z.lt_succ_r, Z.div_lt_upper_bound; lia.
Qed.

(** C1.  Whatever the query, the sources, the credentials and the behaviour of
    DNS and of the two providers, the [overallScore] of the response is an
    integer between 0 and 100; the only requests without a response are those
    with a source URL that does not parse. *)
Theorem overallScore_in_range
    (w : World) (userQuery : string) (citedSources : list Source) :
  match handler w userQuery citedSources with
  | Normal r => 0 ≤ overallScore r ∧ overallScore r ≤ 100
  | Throw => Exists (malformed w) citedSources
  end.
Proof.
  destruct (handler w userQuery citedSources) as [r|] eqn:H.
  - by apply (overallScore_bounds w userQuery citedSources).
  - by apply (handler_Throw w userQuery).
Qed.

(** C2, as stated, fails: the URL of a source is parsed outside every [try]
    (lines 71 and 105), so a source whose URL does not parse makes the
    network analyzer raise, and the handler sends no response. *)
Lemma handler_rejects_unparseable_url :
  URL_hostname unconfigured_world "not a url" = Throw
  ∧ analyzeNetwork unconfigured_world [ {| url := "not a url" |} ] = Throw
  ∧ handler unconfigured_world "what are the features of X" [ {| url := "not a url" |} ]
    = Throw.
Proof. split_and!; reflexivity. Qed.

(** C2, amended.  For every request whose source URLs all parse, the handler
    returns a complete result, whatever DNS and the two providers do: the
    three analyzer results, each with a score between 0 and 100, the score
    and summary synthesized from them, and the placeholder answer.  The
    handler fails exactly when some source URL does not parse. *)
Theorem handler_returns_unless_url_unparseable
    (w : World) (userQuery : string) (citedSources : list Source) :
  (Forall (λ src, ¬ malformed w src) citedSources →
   ∃ na ea,
     analyzeNetwork w citedSources = Normal na
     ∧ analyzeSimplifiedEEAT w citedSources = Normal ea
     ∧ let results := {| queryFraming := analyzeQueryFraming w userQuery;
                         networkAnalysis := na; simplifiedEEAT := ea |} in
       handler w userQuery citedSources
       = Normal {| overallScore := synth_overallScore (synthesizeScore results);
                   summary := synth_summary (synthesizeScore results);
                   alternativeAnswer := alternative_answer_text;
                   metrics := results |}
       ∧ (0 ≤ score (queryFraming results) ∧ score (queryFraming results) ≤ 100)
       ∧ (0 ≤ score na ∧ score na ≤ 100)
       ∧ (0 ≤ score ea ∧ score ea ≤ 100)
       ∧ (0 ≤ synth_overallScore (synthesizeScore results)
          ∧ synth_overallScore (synthesizeScore results) ≤ 100))
  ∧ (handler w userQuery citedSources = Throw ↔ Exists (malformed w) citedSources).
Proof.
  split; [|apply handler_Throw].
  intros Hall.
  destruct (handler w userQuery citedSources) as [r|] eqn:H.
  2:{ apply handler_Throw, Exists_exists in H as (src & Hin & Hbad).
      rewrite Forall_forall in Hall. by destruct (Hall src Hin). }
  pose proof (overallScore_bounds w userQuery citedSources r H) as Hrange.
  apply handler_Normal in H as (na & ea & Hna & Hea & ->).
  exists na, ea. cbn zeta.
  pose proof (analyzeQueryFraming_score w userQuery) as Hq.
  destruct (analyzeNetwork_score w citedSources na Hna) as (k & Hk & Hn).
  pose proof (analyzeSimplifiedEEAT_score w citedSources ea Hea) as He.
  split_and!; cbn [queryFraming networkAnalysis simplifiedEEAT];
    try done; try lia; apply Hrange.
Qed.

(** Five parseable sources, no credentials, one unresolvable domain. *)
Lemma handler_returns_unless_url_unparseable_witness :
  ∃ r, handler shared_hosting_world "what are the features of X" shared_hosting_sources
       = Normal r
       ∧ overallScore r = 80
       ∧ summary r = medium_risk_text.
Proof.
  destruct (proj1 (handler_returns_unless_url_unparseable shared_hosting_world
                     "what are the features of X" shared_hosting_sources))
    as (na & ea & Hna & Hea & Hr & _).
  - repeat constructor; discriminate.
  - vm_compute in Hna. injection Hna as <-.
    vm_compute in Hea. injection Hea as <-.
    eexists. split; [exact Hr|]. split; vm_compute; reflexivity.
Defined.

(** ** Without credentials *)

(** C8.  When neither credential is configured, the framing and the authority
    analyzers each return 100, and the overall score is
    [Math.round(100 * 0.1 + networkScore * 0.5 + 100 * 0.4)] for the score
    that the network analyzer returns, that is [50 + networkScore / 2]; the
    handler responds exactly when the network analyzer returns. *)
Theorem overall_without_credentials
    (w : World) (userQuery : string) (citedSources : list Source) :
  configured (DEEPSEEK_API_KEY w) = None →
  configured (SEARCH_API_KEY w) = None →
  overallScore <$> handler w userQuery citedSources
  = (λ na, Math_round (Number 100 * 0.1 + Number (score na) * 0.5
                       + Number 100 * 0.4)%float)
      <$> analyzeNetwork w citedSources
  ∧ ∀ r, handler w userQuery citedSources = Normal r →
         score (queryFraming (metrics r)) = 100
         ∧ score (simplifiedEEAT (metrics r)) = 100
         ∧ analyzeNetwork w citedSources = Normal (networkAnalysis (metrics r))
         ∧ overallScore r = 50 + score (networkAnalysis (metrics r)) / 2.
Proof.
  intros Hchat Hsearch.
  assert (Hq : analyzeQueryFraming w userQuery
               = {| score := 100; isBiased := Some false;
                    details := "Analysis skipped: API Key not configured." |}).
  { unfold analyzeQueryFraming. by rewrite Hchat. }
  assert (He : analyzeSimplifiedEEAT w citedSources
               = Normal {| score := 100; isBiased := None;
                           details := "Analysis skipped: API Key not configured." |}).
  { unfold analyzeSimplifiedEEAT. by rewrite Hsearch. }
  split.
  - unfold handler. rewrite Hq, He.
    by destruct (analyzeNetwork w citedSources).
  - intros r Hr. apply handler_Normal in Hr as (na & ea & Hna & Hea & ->).
    rewrite He in Hea. injection Hea as <-. rewrite Hq.
    cbn [metrics overallScore queryFraming simplifiedEEAT networkAnalysis score].
    split_and!; try done.
    destruct (analyzeNetwork_score w citedSources na Hna) as (k & Hk & Hscore).
    rewrite overall_of_scores; cbn [queryFraming simplifiedEEAT networkAnalysis score];
      [|by right | by exists k | lia].
    rewrite Hscore.
    replace (100 + 5 * (20 * k) + 4 * 100 + 5) with (5 + (50 + 10 * k) * 10) by lia.
    replace (20 * k) with (10 * k * 2) by lia.
    rewrite Z.div_add, Z.div_mul by lia. reflexivity.
Qed.

(** Two domains on one address: [Math.round(10 + 30 + 40)]. *)
Lemma overall_without_credentials_witness :
  overallScore
    <$> handler shared_hosting_world "why is X superior to Y" shared_hosting_sources
  = (λ na, Math_round (Number 100 * 0.1 + Number (score na) * 0.5
                       + Number 100 * 0.4)%float)
      <$> analyzeNetwork shared_hosting_world shared_hosting_sources
  ∧ ∀ r, handler shared_hosting_world "why is X superior to Y" shared_hosting_sources
         = Normal r →
         score (queryFraming (metrics r)) = 100
         ∧ score (simplifiedEEAT (metrics r)) = 100
         ∧ analyzeNetwork shared_hosting_world shared_hosting_sources
           = Normal (networkAnalysis (metrics r))
         ∧ overallScore r = 50 + score (networkAnalysis (metrics r)) / 2.
Proof.
  apply (overall_without_credentials shared_hosting_world "why is X superior to Y"
           shared_hosting_sources); reflexivity.
Defined.

(** ** The scenarios of the specification *)

Example scenario_single_source :
  handler shared_hosting_world "what are the features of X"
    [ {| url := "http://a.example.com" |} ]
  = Normal
      {| overallScore := 100;
         summary := low_risk_text;
         alternativeAnswer := alternative_answer_text;
         metrics :=
           {| queryFraming :=
                {| score := 100; isBiased := Some false;
                   details := "Analysis skipped: API Key not configured." |};
              networkAnalysis :=
                {| score := 100; isBiased := None;
                   details := "0 domains may be part of a shared network." |};
              simplifiedEEAT :=
                {| score := 100; isBiased := None;
                   details := "Analysis skipped: API Key not configured." |} |} |}.
Proof. reflexivity. Qed.

Example scenario_two_sources_one_address :
  overallScore
    <$> handler shared_hosting_world "what are the features of X"
          [ {| url := "http://a.example.com" |}; {| url := "http://b.example.com" |} ]
  = Normal 80
  ∧ summary
      <$> handler shared_hosting_world "what are the features of X"
            [ {| url := "http://a.example.com" |}; {| url := "http://b.example.com" |} ]
    = Normal medium_risk_text
  ∧ score
      <$> analyzeNetwork shared_hosting_world
            [ {| url := "http://a.example.com" |}; {| url := "http://b.example.com" |} ]
    = Normal 60.
Proof. split_and!; reflexivity. Qed.

(** * Further properties of the code *)

(** ** Which domains the network analyzer flags *)

Lemma two_members_length (l : list string) (x y : string) :
  x ∈ l → y ∈ l → x ≠ y → (2 ≤ length l)%nat.
Proof.
  destruct l as [|a [|b l]]; simpl; [by intros ?%elem_of_nil | | lia].
  intros ->%list_elem_of_singleton ->%list_elem_of_singleton. done.
Qed.

Lemma elem_of_shared (w : World) (domains : list string) (d : string) :
  NoDup domains →
  d ∈ sharedIpDomains (network_scan w domains)
  ↔ d ∈ domains
    ∧ ∃ a d', inherited a = false ∧ d' ∈ domains ∧ d' ≠ d
              ∧ dns_lookup w d = Normal a ∧ dns_lookup w d' = Normal a.
Proof.
  intros Hnd. destruct (network_scan_invariant w domains) as [_ Hshared].
  rewrite Hshared. split.
  - intros (a & Ha & Hin & Hlen).
    apply elem_of_cluster in Hin as [Hda Hd]. split; [done|].
    destruct (two_distinct_members (cluster w a domains)) as (x & y & Hx & Hy & Hxy);
      [by apply NoDup_filter | done |].
    apply elem_of_cluster in Hx as [Hxa Hx], Hy as [Hya Hy].
    exists a. destruct (decide (x = d)) as [->|Hxd].
    + exists y. split_and!; [done | done | congruence | done | done].
    + by exists x.
  - intros (Hd & a & d' & Ha & Hd' & Hne & Hda & Hd'a).
    exists a. split_and!; [done | by apply elem_of_cluster |].
    apply (two_members_length _ d d'); [by apply elem_of_cluster.. | congruence].
Qed.

Lemma shared_size_not_1 (w : World) (domains : list string) :
  NoDup domains → size (sharedIpDomains (network_scan w domains)) ≠ 1%nat.
Proof.
  intros Hnd Hsize. apply size_1_elem_of in Hsize as [d Hsingle].
  assert (Hin : d ∈ sharedIpDomains (network_scan w domains)).
  { rewrite Hsingle. by apply elem_of_singleton. }
  destruct (proj1 (elem_of_shared w domains d Hnd) Hin)
    as (Hdin & a & d' & Ha & Hd' & Hne & Hda & Hd'a).
  assert (Hin2 : d' ∈ sharedIpDomains (network_scan w domains)).
  { apply elem_of_shared; [done|]. split; [done|]. exists a, d.
    split_and!; [done | done | congruence | done | done]. }
  rewrite Hsingle in Hin2. by apply elem_of_singleton in Hin2.
Qed.

Lemma analyzeNetwork_computed (w : World) (sources : list Source) (domains : list string) :
  sources ≠ [] →
  uniqueDomains w sources = Normal domains →
  analyzeNetwork w sources
  = Normal {| score := network_score (sharedIpDomains (network_scan w domains));
              isBiased := None;
              details := pretty (size (sharedIpDomains (network_scan w domains)))
                         +:+ " domains may be part of a shared network." |}.
Proof.
  intros Hne Huniq. unfold analyzeNetwork.
  destruct sources as [|src sources]; [done|]. by rewrite Huniq.
Qed.

(** X1.  After the loop over the unique domains, a domain is in
    [sharedIpDomains] exactly when it is one of the analysed domains, it
    resolves, and another analysed domain resolves to the same address (the
    address not being the name of an inherited property).  This holds for any
    number of clusters, and whatever the order of the lookups. *)
Theorem flagged_iff_shares_address
    (w : World) (sources : list Source) (domains : list string) (d : string) :
  uniqueDomains w sources = Normal domains →
  d ∈ sharedIpDomains (network_scan w domains)
  ↔ d ∈ domains
    ∧ ∃ a d', inherited a = false ∧ d' ∈ domains ∧ d' ≠ d
              ∧ dns_lookup w d = Normal a ∧ dns_lookup w d' = Normal a.
Proof.
  intros Huniq. apply elem_of_shared.
  by destruct (uniqueDomains_Normal w sources domains Huniq) as (Hnd & _).
Qed.

(** The site [b.example.com] is flagged because [a.example.com] is on the same
    address. *)
Lemma flagged_iff_shares_address_witness :
  let domains := ["a.example.com"; "b.example.com"; "c.example.com"; "d.example.com"] in
  "b.example.com" ∈ sharedIpDomains (network_scan shared_hosting_world domains)
  ↔ "b.example.com" ∈ domains
    ∧ ∃ a d', inherited a = false ∧ d' ∈ domains ∧ d' ≠ "b.example.com"
              ∧ dns_lookup shared_hosting_world "b.example.com" = Normal a
              ∧ dns_lookup shared_hosting_world d' = Normal a.
Proof.
  apply (flagged_iff_shares_address shared_hosting_world shared_hosting_sources).
  reflexivity.
Defined.

Lemma analyzeNetwork_score_values (w : World) (sources : list Source) (r : AnalyzerResult) :
  analyzeNetwork w sources = Normal r → score r ∈ [100; 60; 40; 20; 0].
Proof.
  intros Hr.
  destruct sources as [|src sources]; [injection Hr as <-; set_solver|].
  destruct (uniqueDomains w (src :: sources)) as [domains|] eqn:Huniq.
  2:{ unfold analyzeNetwork in Hr. by rewrite Huniq in Hr. }
  rewrite (analyzeNetwork_computed w _ domains) in Hr by done.
  injection Hr as <-. cbn [score].
  destruct (uniqueDomains_Normal w _ domains Huniq) as (Hnd & _).
  pose proof (shared_size_not_1 w domains Hnd) as Hsize.
  unfold network_score.
  set (n := size (sharedIpDomains (network_scan w domains))) in *.
  destruct n as [|[|[|[|[|n]]]]]; [set_solver | done | set_solver.. |].
  replace (Z.max 0 (100 - Z.of_nat (S (S (S (S (S n))))) * 20)) with 0 by lia.
  set_solver.
Qed.

(** X2.  The set of flagged domains never has exactly one member, so the
    network analyzer returns 100, 60, 40, 20 or 0 and never 80: the first
    shared address costs 40 points at once. *)
Theorem network_score_never_80 (w : World) (sources : list Source) :
  match analyzeNetwork w sources with
  | Normal r => score r ∈ [100; 60; 40; 20; 0]
  | Throw => Exists (malformed w) sources
  end.
Proof.
  destruct (analyzeNetwork w sources) as [r|] eqn:Hr.
  - by apply (analyzeNetwork_score_values w sources).
  - by apply analyzeNetwork_Throw.
Qed.

Lemma network_score_100 (shared : gset string) :
  network_score shared = 100 ↔ shared = ∅.
Proof.
  unfold network_score. rewrite <- leibniz_equiv_iff, <- size_empty_iff. lia.
Qed.

(** X3.  The network analyzer returns 100 exactly when no two different
    analysed domains resolve to one address; domains that fail to resolve
    never cost anything, and neither does a single domain. *)
Theorem network_clean_iff_no_shared_address
    (w : World) (sources : list Source) (domains : list string) :
  sources ≠ [] →
  uniqueDomains w sources = Normal domains →
  ∃ r, analyzeNetwork w sources = Normal r
       ∧ (score r = 100
          ↔ ∀ a d d', d ∈ domains → d' ∈ domains → d ≠ d' →
                      dns_lookup w d = Normal a → dns_lookup w d' = Normal a →
                      inherited a = true).
Proof.
  intros Hne Huniq. eexists. split; [by apply analyzeNetwork_computed|].
  cbn [score]. rewrite network_score_100.
  destruct (uniqueDomains_Normal w sources domains Huniq) as (Hnd & _). split.
  - intros Hempty a d d' Hd Hd' Hdd' Hda Hd'a.
    destruct (inherited a) eqn:Ha; [done|].
    assert (Hin : d ∈ sharedIpDomains (network_scan w domains)).
    { apply elem_of_shared; [done|]. split; [done|]. exists a, d'.
      split_and!; [done | done | congruence | done | done]. }
    rewrite Hempty in Hin. by apply not_elem_of_empty in Hin.
  - intros Hnone. apply set_eq. intros d. split; [|by intros ?%not_elem_of_empty].
    intros Hin.
    apply elem_of_shared in Hin as (Hd & a & d' & Ha & Hd' & Hne' & Hda & Hd'a);
      [|done].
    rewrite (Hnone a d d') in Ha; [done | done | done | congruence | done | done].
Qed.

(** One source: nothing to share an address with. *)
Lemma network_clean_iff_no_shared_address_witness :
  ∃ r, analyzeNetwork shared_hosting_world [ {| url := "http://a.example.com/" |} ]
       = Normal r
       ∧ (score r = 100
          ↔ ∀ a d d', d ∈ ["a.example.com"] → d' ∈ ["a.example.com"] → d ≠ d' →
                      dns_lookup shared_hosting_world d = Normal a →
                      dns_lookup shared_hosting_world d' = Normal a →
                      inherited a = true).
Proof.
  apply (network_clean_iff_no_shared_address shared_hosting_world
           [ {| url := "http://a.example.com/" |} ] ["a.example.com"]).
  - discriminate.
  - reflexivity.
Defined.

(** ** More sources *)

Lemma mapM_app {A B} (f : A → completion B) (l k : list A) :
  mapM f (l ++ k) = ys ← mapM f l; zs ← mapM f k; Normal (ys ++ zs).
Proof.
  induction l as [|x l IH]; simpl.
  - by destruct (mapM f k).
  - destruct (f x) as [y|]; simpl; [|done]. rewrite IH.
    destruct (mapM f l) as [ys|]; simpl; [|done].
    by destruct (mapM f k).
Qed.

Lemma foldl_Set_add_prefix (xs acc : list string) :
  ∃ extra, foldl Set_add acc xs = acc ++ extra.
Proof.
  revert acc. induction xs as [|x xs IH]; intros acc; simpl.
  - exists []. by rewrite app_nil_r.
  - destruct (IH (Set_add acc x)) as [extra ->]. unfold Set_add.
    case_decide; [by exists extra|]. exists (x :: extra). by rewrite <- app_assoc.
Qed.

Lemma uniqueDomains_app (w : World) (sources more : list Source) (domains' : list string) :
  uniqueDomains w (sources ++ more) = Normal domains' →
  ∃ domains extra,
    uniqueDomains w sources = Normal domains ∧ domains' = domains ++ extra.
Proof.
  unfold uniqueDomains. rewrite mapM_app.
  destruct (mapM _ sources) as [hs|]; simpl; [|done].
  destruct (mapM _ more) as [ks|]; simpl; [|done].
  intros [= <-]. unfold Set_values. rewrite foldl_app.
  destruct (foldl_Set_add_prefix ks (foldl Set_add [] hs)) as [extra ->].
  by exists (foldl Set_add [] hs), extra.
Qed.

Lemma network_step_shared_mono (w : World) (st : NetworkState) (d : string) :
  sharedIpDomains st ⊆ sharedIpDomains (network_step w st d).
Proof.
  unfold network_step.
  destruct (dns_lookup w d) as [a|]; simpl; [|done].
  destruct (inherited a); simpl; [done|].
  destruct (ipMap st !! a); simpl; [apply union_subseteq_l | done].
Qed.

Lemma network_scan_app_mono (w : World) (domains extra : list string) :
  sharedIpDomains (network_scan w domains)
  ⊆ sharedIpDomains (network_scan w (domains ++ extra)).
Proof.
  induction extra as [|d extra IH] using rev_ind.
  - by rewrite app_nil_r.
  - rewrite app_assoc. unfold network_scan at 2. rewrite foldl_snoc.
    fold (network_scan w (domains ++ extra)).
    etrans; [exact IH | apply network_step_shared_mono].
Qed.

(** X4.  Citing more sources never raises the network score: the set of
    flagged domains only grows along the loop, so the score of a longer list
    is at most the score of any of its prefixes. *)
Theorem network_score_antitone
    (w : World) (sources more : list Source) (r r' : AnalyzerResult) :
  analyzeNetwork w sources = Normal r →
  analyzeNetwork w (sources ++ more) = Normal r' →
  score r' ≤ score r ∧ score r ≤ 100.
Proof.
  intros Hr Hr'.
  assert (Hr100 : score r ≤ 100).
  { destruct (analyzeNetwork_score w sources r Hr) as (k & Hk & ->). lia. }
  split; [|done].
  destruct (decide (sources = [])) as [->|Hne].
  { injection Hr as <-. simpl.
    destruct (analyzeNetwork_score w _ r' Hr') as (k & Hk & ->). lia. }
  assert (Hne' : sources ++ more ≠ []) by (by destruct sources).
  destruct (uniqueDomains w (sources ++ more)) as [domains'|] eqn:Huniq'.
  2:{ apply uniqueDomains_Throw, (analyzeNetwork_Throw w) in Huniq'. congruence. }
  destruct (uniqueDomains_app w sources more domains' Huniq')
    as (domains & extra & Huniq & ->).
  rewrite (analyzeNetwork_computed w sources domains) in Hr by done.
  rewrite (analyzeNetwork_computed w _ (domains ++ extra)) in Hr' by done.
  injection Hr as <-. injection Hr' as <-. cbn [score].
  pose proof (subseteq_size _ _ (network_scan_app_mono w domains extra)) as Hsize.
  unfold network_score. lia.
Qed.

(** Adding [b.example.com] to [a.example.com] takes the score from 100 to 60. *)
Lemma network_score_antitone_witness :
  let sources := [ {| url := "http://a.example.com/" |} ] in
  let more := [ {| url := "http://b.example.com/" |} ] in
  let r := {| score := 100; isBiased := None;
              details := "0 domains may be part of a shared network." |} in
  let r' := {| score := 60; isBiased := None;
               details := "2 domains may be part of a shared network." |} in
  analyzeNetwork shared_hosting_world sources = Normal r
  ∧ analyzeNetwork shared_hosting_world (sources ++ more) = Normal r'
  ∧ score r' ≤ score r ∧ score r ≤ 100.
Proof.
  intros sources more r r'.
  split; [reflexivity|]. split; [reflexivity|].
  apply (network_score_antitone shared_hosting_world sources more r r'); reflexivity.
Defined.

(** ** Order and repetition of the sources *)

(** X5.  The network analyzer depends on the sources only through the set of
    their hostnames: two lists of sources with the same hostnames, in any
    order and with any repetitions, get the same result. *)
Theorem network_depends_on_hostname_set
    (w : World) (sources1 sources2 : list Source) (domains1 domains2 : list string) :
  sources1 ≠ [] → sources2 ≠ [] →
  uniqueDomains w sources1 = Normal domains1 →
  uniqueDomains w sources2 = Normal domains2 →
  (∀ d, d ∈ domains1 ↔ d ∈ domains2) →
  analyzeNetwork w sources1 = analyzeNetwork w sources2.
Proof.
  intros Hne1 Hne2 Hu1 Hu2 Hsame.
  destruct (uniqueDomains_Normal w _ _ Hu1) as (Hnd1 & _).
  destruct (uniqueDomains_Normal w _ _ Hu2) as (Hnd2 & _).
  rewrite (analyzeNetwork_computed w sources1 domains1),
    (analyzeNetwork_computed w sources2 domains2) by done.
  assert (Heq : sharedIpDomains (network_scan w domains1)
                = sharedIpDomains (network_scan w domains2)).
  { apply set_eq. intros d. rewrite !elem_of_shared by done.
    rewrite Hsame. split; intros (Hd & a & d' & Ha & Hd' & Hrest);
      (split; [done|]); exists a, d'; (split; [done|]); split; try done.
    - by apply Hsame.
    - by apply Hsame. }
  by rewrite Heq.
Qed.

(** The sources of [shared_hosting_sources] in another order, one repeated. *)
Lemma network_depends_on_hostname_set_witness :
  analyzeNetwork shared_hosting_world shared_hosting_sources
  = analyzeNetwork shared_hosting_world
      [ {| url := "http://d.example.com" |}; {| url := "http://c.example.com/" |};
        {| url := "http://b.example.com/x" |}; {| url := "http://a.example.com/" |};
        {| url := "http://c.example.com/review" |} ].
Proof.
  apply (network_depends_on_hostname_set shared_hosting_world _ _
           ["a.example.com"; "b.example.com"; "c.example.com"; "d.example.com"]
           ["d.example.com"; "c.example.com"; "b.example.com"; "a.example.com"]).
  - discriminate.
  - discriminate.
  - reflexivity.
  - reflexivity.
  - intros d. rewrite !elem_of_cons, !elem_of_nil. tauto.
Defined.

Lemma Zsum_Permutation (l k : list Z) : l ≡ₚ k → Zsum l = Zsum k.
Proof.
  induction 1 as [|x l k _ IH|x y l|l k m _ IH1 _ IH2]; simpl.
  - done.
  - unfold Zsum in *. simpl. by rewrite IH.
  - unfold Zsum. simpl. lia.
  - congruence.
Qed.

Lemma low_count_Permutation (w : World) (searchApiKey : string) (l k : list string) :
  l ≡ₚ k → low_count w searchApiKey l = low_count w searchApiKey k.
Proof.
  induction 1 as [|x l k _ IH|x y l|l k m _ IH1 _ IH2]; simpl.
  - done.
  - by rewrite IH.
  - lia.
  - congruence.
Qed.

(** X6.  The authority analyzer, too, depends on the sources only through the
    set of their hostnames: order and repetitions change neither the score
    nor the reported count of low-authority domains. *)
Theorem authority_depends_on_hostname_set
    (w : World) (sources1 sources2 : list Source) (domains1 domains2 : list string) :
  sources1 ≠ [] → sources2 ≠ [] →
  uniqueDomains w sources1 = Normal domains1 →
  uniqueDomains w sources2 = Normal domains2 →
  (∀ d, d ∈ domains1 ↔ d ∈ domains2) →
  analyzeSimplifiedEEAT w sources1 = analyzeSimplifiedEEAT w sources2.
Proof.
  intros Hne1 Hne2 Hu1 Hu2 Hsame.
  destruct (configured (SEARCH_API_KEY w)) as [searchApiKey|] eqn:Hkey.
  2:{ unfold analyzeSimplifiedEEAT. by rewrite Hkey. }
  destruct (uniqueDomains_Normal w _ _ Hu1) as (Hnd1 & _).
  destruct (uniqueDomains_Normal w _ _ Hu2) as (Hnd2 & _).
  assert (Hperm : domains1 ≡ₚ domains2) by (by apply NoDup_Permutation).
  rewrite (analyzeSimplifiedEEAT_computed w searchApiKey sources1 domains1),
    (analyzeSimplifiedEEAT_computed w searchApiKey sources2 domains2) by done.
  rewrite (Zsum_Permutation _ _ (fmap_Permutation _ _ _ Hperm)).
  rewrite (low_count_Permutation w searchApiKey _ _ Hperm).
  by rewrite (Permutation_length Hperm).
Qed.

(** The sources of [authority_sources] in another order, one repeated. *)
Lemma authority_depends_on_hostname_set_witness :
  analyzeSimplifiedEEAT authority_world authority_sources
  = analyzeSimplifiedEEAT authority_world
      [ {| url := "http://down.example/" |}; {| url := "http://high.example/" |};
        {| url := "http://low.example/b" |}; {| url := "http://mid.example/" |};
        {| url := "http://low.example/a" |} ].
Proof.
  apply (authority_depends_on_hostname_set authority_world _ _
           ["low.example"; "mid.example"; "high.example"; "down.example"]
           ["down.example"; "high.example"; "low.example"; "mid.example"]).
  - discriminate.
  - discriminate.
  - reflexivity.
  - reflexivity.
  - intros d. rewrite !elem_of_cons, !elem_of_nil. tauto.
Defined.

(** ** Uniform contributions and the low-authority count *)

Lemma Zsum_constant (f : string → Z) (domains : list string) (p : Z) :
  (∀ d, d ∈ domains → f d = p) →
  Zsum (f <$> domains) = p * Z.of_nat (length domains).
Proof.
  induction domains as [|d domains IH]; intros Hall; [simpl; lia|].
  rewrite fmap_cons, Zsum_cons, length_cons, Nat2Z.inj_succ.
  rewrite (Hall d) by left. rewrite IH; [lia|].
  intros d' Hd'. apply Hall. by right.
Qed.

Lemma Math_round_div_exact (p n : Z) : 0 < n → Math_round_div (p * n) n = p.
Proof.
  intros Hn. unfold Math_round_div. symmetry.
  apply (Z.div_unique _ _ _ n); lia.
Qed.

(** X7.  When every analysed domain contributes the same number of points,
    the authority score is exactly that number; in particular a search
    provider that fails for every domain yields 50, and a single domain
    yields its own contribution. *)
Theorem authority_uniform_contribution
    (w : World) (searchApiKey : string) (sources : list Source)
    (domains : list string) (p : Z) :
  configured (SEARCH_API_KEY w) = Some searchApiKey →
  sources ≠ [] →
  uniqueDomains w sources = Normal domains →
  (∀ d, d ∈ domains → (authority_points w searchApiKey d).1 = p) →
  score <$> analyzeSimplifiedEEAT w sources = Normal p
  ∧ ((∀ d, d ∈ domains → fetch_search w searchApiKey d = Throw) → p = 50).
Proof.
  intros Hkey Hne Huniq Hall.
  destruct (uniqueDomains_Normal w sources domains Huniq) as (_ & Hnonempty & _).
  specialize (Hnonempty Hne). split.
  - rewrite (analyzeSimplifiedEEAT_computed w searchApiKey sources domains) by done.
    simpl. f_equal. rewrite (Zsum_constant _ domains p) by done.
    apply Math_round_div_exact. destruct domains; [done | simpl; lia].
  - intros Hdown. destruct domains as [|d domains]; [done|].
    rewrite <- (Hall d) by left. unfold authority_points.
    by rewrite (Hdown d) by left.
Qed.

(** Two domains, the provider down for both. *)
Lemma authority_uniform_contribution_witness :
  let domains := ["one.example"; "two.example"] in
  score <$> analyzeSimplifiedEEAT outage_world
              [ {| url := "http://one.example/" |}; {| url := "http://two.example/" |} ]
  = Normal 50
  ∧ ((∀ d, d ∈ domains → fetch_search outage_world "serp-key" d = Throw) → 50 = 50).
Proof.
  apply (authority_uniform_contribution outage_world "serp-key"
           [ {| url := "http://one.example/" |}; {| url := "http://two.example/" |} ]
           ["one.example"; "two.example"] 50).
  - reflexivity.
  - discriminate.
  - reflexivity.
  - intros d _. reflexivity.
Defined.

Lemma authority_low_iff (w : World) (searchApiKey d : string) :
  ((authority_points w searchApiKey d).1 = 20 ∧ (authority_points w searchApiKey d).2 = 1%nat)
  ∨ (50 ≤ (authority_points w searchApiKey d).1 ∧ (authority_points w searchApiKey d).2 = 0%nat).
Proof.
  destruct (authority_points_cases w searchApiKey d) as [H|[H|[H|H]]];
    rewrite H; simpl; [left | right..]; (split; [lia | done]).
Qed.

Lemma low_count_filter (w : World) (searchApiKey : string) (domains : list string) :
  low_count w searchApiKey domains
  = length (filter (λ d, (authority_points w searchApiKey d).1 = 20) domains).
Proof.
  induction domains as [|d domains IH]; [done|].
  simpl. rewrite filter_cons, IH.
  destruct (authority_low_iff w searchApiKey d) as [[Hp Hl]|[Hp Hl]]; rewrite Hl.
  - by rewrite decide_True by done.
  - by rewrite decide_False by lia.
Qed.

Lemma contributions_low_bounds (w : World) (searchApiKey : string) (domains : list string) :
  let total := Zsum ((λ d, (authority_points w searchApiKey d).1) <$> domains) in
  let low := Z.of_nat (low_count w searchApiKey domains) in
  let n := Z.of_nat (length domains) in
  low ≤ n ∧ 20 * low + 50 * (n - low) ≤ total ∧ total ≤ 20 * low + 100 * (n - low).
Proof.
  induction domains as [|d domains IH]; cbn zeta in *; [simpl; lia|].
  rewrite fmap_cons, Zsum_cons, length_cons, Nat2Z.inj_succ.
  cbn [low_count foldr]. fold (low_count w searchApiKey domains).
  destruct (authority_low_iff w searchApiKey d) as [[Hp Hl]|[Hp Hl]];
    rewrite Hl; [rewrite Hp|]; [lia|].
  pose proof (contributions_bounds w searchApiKey [d]) as Hd.
  cbn zeta in Hd. rewrite fmap_cons, Zsum_cons in Hd. simpl in Hd. lia.
Qed.

(** X8.  The count that the authority analyzer reports in [details] is the
    number of analysed domains that contributed 20 points.  When it is 0 the
    score is at least 50; when it is the number of analysed domains the score
    is exactly 20. *)
Theorem authority_low_count_and_score
    (w : World) (searchApiKey : string) (sources : list Source) (domains : list string) :
  configured (SEARCH_API_KEY w) = Some searchApiKey →
  sources ≠ [] →
  uniqueDomains w sources = Normal domains →
  ∃ r, analyzeSimplifiedEEAT w sources = Normal r
       ∧ let low := length (filter (λ d, (authority_points w searchApiKey d).1 = 20)
                              domains) in
         details r = pretty low +:+ " domains have very low authority."
         ∧ (low ≤ length domains)%nat
         ∧ (low = 0%nat → 50 ≤ score r)
         ∧ (low = length domains → score r = 20).
Proof.
  intros Hkey Hne Huniq. eexists.
  split; [by apply analyzeSimplifiedEEAT_computed|]. cbn [score details].
  rewrite <- low_count_filter.
  destruct (uniqueDomains_Normal w sources domains Huniq) as (_ & Hnonempty & _).
  assert (Hn : 0 < Z.of_nat (length domains)).
  { specialize (Hnonempty Hne). destruct domains; [done | simpl; lia]. }
  pose proof (contributions_low_bounds w searchApiKey domains) as Hb. cbn zeta in Hb.
  split_and!; [done | lia | |].
  - intros Hlow. rewrite Hlow in Hb.
    apply (Math_round_div_bounds _ _ 50 100); lia.
  - intros Hlow. rewrite Hlow in Hb.
    assert (Hbounds := Math_round_div_bounds
                         (Zsum ((λ d, (authority_points w searchApiKey d).1) <$> domains))
                         (Z.of_nat (length domains)) 20 20 Hn).
    lia.
Qed.

(** One low domain of four. *)
Lemma authority_low_count_and_score_witness :
  ∃ r, analyzeSimplifiedEEAT authority_world authority_sources = Normal r
       ∧ let low := length (filter (λ d, (authority_points authority_world "serp-key" d).1 = 20)
                              ["low.example"; "mid.example"; "high.example"; "down.example"]) in
         details r = pretty low +:+ " domains have very low authority."
         ∧ (low ≤ 4)%nat
         ∧ (low = 0%nat → 50 ≤ score r)
         ∧ (low = 4%nat → score r = 20).
Proof.
  apply (authority_low_count_and_score authority_world "serp-key" authority_sources
           ["low.example"; "mid.example"; "high.example"; "down.example"]).
  - reflexivity.
  - discriminate.
  - reflexivity.
Defined.

(** ** The classification of the provider's answer *)

Lemma classify_response_Normal (data : value) (r : AnalyzerResult) :
  classify_response data = Normal r →
  ∃ choices choice message text,
    Get data "choices" = Normal choices
    ∧ GetIndex choices 0 = Normal choice
    ∧ Get choice "message" = Normal message
    ∧ Get message "content" = Normal (VString text)
    ∧ r = {| score := if includes (toLowerCase (trim text)) "biased" then 50 else 100;
             isBiased := Some (includes (toLowerCase (trim text)) "biased");
             details := "Query was classified as: " +:+ toLowerCase (trim text) |}.
Proof.
  unfold classify_response. intros H.
  apply bind_Normal in H as (choices & Hchoices & H).
  apply bind_Normal in H as (choice & Hchoice & H).
  apply bind_Normal in H as (message & Hmessage & H).
  apply bind_Normal in H as (content & Hcontent & H).
  apply bind_Normal in H as (result & Hresult & H).
  destruct content as [| | | |text| |]; try discriminate Hresult.
  injection Hresult as <-. injection H as <-.
  by exists choices, choice, message, text.
Qed.

(** X9.  The query framing analyzer never raises and returns a score of 50 or
    100.  The score is 50 exactly when [isBiased] is true, and that happens
    only when the credential is configured, the request and the parsing of
    its body succeed, and [choices[0].message.content] is a string whose
    trimmed lower-case form contains [biased]; every other path (no
    credential, failed request, unexpected shape) is neutral. *)
Theorem query_framing_penalty_only_on_biased_answer (w : World) (userQuery : string) :
  let r := analyzeQueryFraming w userQuery in
  (score r = 50 ∨ score r = 100)
  ∧ (score r = 50 ↔ isBiased r = Some true)
  ∧ (score r = 100 ↔ isBiased r = Some false)
  ∧ (isBiased r = Some true →
     ∃ apiKey response data choices choice message text,
       configured (DEEPSEEK_API_KEY w) = Some apiKey
       ∧ fetch_chat w apiKey (framing_prompt userQuery) = Normal response
       ∧ json response = Normal data
       ∧ Get data "choices" = Normal choices
       ∧ GetIndex choices 0 = Normal choice
       ∧ Get choice "message" = Normal message
       ∧ Get message "content" = Normal (VString text)
       ∧ includes (toLowerCase (trim text)) "biased" = true).
Proof.
  intros r. subst r. unfold analyzeQueryFraming.
  destruct (configured (DEEPSEEK_API_KEY w)) as [apiKey|] eqn:Hkey;
    [|simpl; split_and!; [by right | done | done | done]].
  destruct (fetch_chat w apiKey (framing_prompt userQuery)) as [response|] eqn:Hfetch;
    [|simpl; split_and!; [by right | done | done | done]].
  simpl. destruct (json response) as [data|] eqn:Hjson;
    [|simpl; split_and!; [by right | done | done | done]].
  simpl. destruct (classify_response data) as [r|] eqn:Hr;
    [|simpl; split_and!; [by right | done | done | done]].
  simpl.
  apply classify_response_Normal in Hr
    as (choices & choice & message & text & Hc & Hi & Hm & Ht & ->).
  simpl. destruct (includes (toLowerCase (trim text)) "biased") eqn:Hinc.
  - split_and!; [by left | done | done |]. intros _.
    by exists apiKey, response, data, choices, choice, message, text.
  - split_and!; [by right | done | done | done].
Qed.

(** ** White space and letter case in the answer *)

Lemma is_white_space_lower_char (c : ascii) :
  is_white_space (lower_char c) = is_white_space c.
Proof. by destruct c as [[] [] [] [] [] [] [] []]. Qed.

Lemma toLowerCase_trimStart (s : string) :
  toLowerCase (trimStart s) = trimStart (toLowerCase s).
Proof.
  induction s as [|c s IH]; [done|]. simpl.
  rewrite is_white_space_lower_char. by destruct (is_white_space c).
Qed.

Lemma toLowerCase_trimEnd (s : string) :
  toLowerCase (trimEnd s) = trimEnd (toLowerCase s).
Proof.
  induction s as [|c s IH]; [done|]. simpl. rewrite <- IH.
  destruct (trimEnd s) as [|a r]; simpl; [|done].
  rewrite is_white_space_lower_char. by destruct (is_white_space c).
Qed.

Lemma starts_with_white_space (p s : string) (a c : ascii) :
  is_white_space a = false → is_white_space c = true →
  starts_with (String a p) (String c s) = false.
Proof.
  intros Ha Hc. simpl. destruct (Ascii.eqb_spec a c) as [->|]; [congruence | done].
Qed.

Lemma includes_trimStart (s p : string) (a : ascii) :
  is_white_space a = false →
  includes (trimStart s) (String a p) = includes s (String a p).
Proof.
  intros Ha. induction s as [|c s IH]; [done|].
  cbn [trimStart]. destruct (is_white_space c) eqn:Hc; [|done].
  rewrite IH. cbn [includes]. by rewrite (starts_with_white_space p s a c).
Qed.

Lemma starts_with_trimEnd (p s : string) :
  no_white_space p = true → starts_with p (trimEnd s) = starts_with p s.
Proof.
  revert p. induction s as [|c s IH]; intros p Hp; [done|].
  destruct p as [|a p]; [done|].
  simpl in Hp. apply andb_true_iff in Hp as [Ha Hp]. apply negb_true_iff in Ha.
  cbn [trimEnd]. specialize (IH p Hp).
  destruct (trimEnd s) as [|b r] eqn:Hts.
  - destruct (is_white_space c) eqn:Hc.
    + by rewrite (starts_with_white_space p s a c).
    + cbn [starts_with]. by rewrite <- IH.
  - cbn [starts_with]. by rewrite <- IH.
Qed.

Lemma includes_trimEnd (s p : string) (a : ascii) :
  no_white_space (String a p) = true →
  includes (trimEnd s) (String a p) = includes s (String a p).
Proof.
  intros Hp. induction s as [|c s IH]; [done|].
  cbn [includes]. rewrite <- (starts_with_trimEnd _ (String c s)) by done.
  rewrite <- IH. cbn [trimEnd].
  destruct (trimEnd s) as [|b r] eqn:Hts.
  - destruct (is_white_space c); [done|]. cbn [includes starts_with].
    by rewrite !orb_false_r.
  - done.
Qed.

Lemma includes_trim_lower (text p : string) (a : ascii) :
  no_white_space (String a p) = true →
  includes (toLowerCase (trim text)) (String a p)
  = includes (toLowerCase text) (String a p).
Proof.
  intros Hp. unfold trim.
  rewrite toLowerCase_trimEnd, toLowerCase_trimStart, includes_trimEnd by done.
  apply includes_trimStart.
  simpl in Hp. apply andb_true_iff in Hp as [Ha _]. by apply negb_true_iff in Ha.
Qed.

(** X10.  The [trim()] of line 59 has no influence on the verdict: for an
    answer with a text at [choices[0].message.content], [isBiased] is whether
    the lower-cased text, untrimmed, contains [biased].  So any answer in which
    these six letters occur in a row, in any mix of upper and lower case,
    counts as biased and scores 50, an answer such as [Unbiased] included. *)
Theorem biased_verdict_ignores_trim
    (data choices choice message : value) (text : string) :
  Get data "choices" = Normal choices →
  GetIndex choices 0 = Normal choice →
  Get choice "message" = Normal message →
  Get message "content" = Normal (VString text) →
  ∃ r, classify_response data = Normal r
       ∧ isBiased r = Some (includes (toLowerCase text) "biased")
       ∧ (isBiased r = Some true
          ↔ ∃ pre post, toLowerCase text = pre +:+ "biased" +:+ post)
       ∧ (score r = 50 ↔ ∃ pre post, toLowerCase text = pre +:+ "biased" +:+ post).
Proof.
  intros Hchoices Hchoice Hmessage Hcontent. eexists. split.
  { unfold classify_response. rewrite Hchoices. simpl. rewrite Hchoice. simpl.
    rewrite Hmessage. simpl. rewrite Hcontent. simpl. reflexivity. }
  cbn [isBiased score].
  rewrite (includes_trim_lower text "iased" "b") by reflexivity.
  rewrite <- includes_spec.
  destruct (includes (toLowerCase text) "biased"); split_and!; try done.
Qed.

(** The answer [Unbiased.] is classified as biased. *)
Lemma biased_verdict_ignores_trim_witness :
  ∃ r, classify_response (chat_reply " Unbiased.") = Normal r
       ∧ isBiased r = Some (includes (toLowerCase " Unbiased.") "biased")
       ∧ (isBiased r = Some true
          ↔ ∃ pre post, toLowerCase " Unbiased." = pre +:+ "biased" +:+ post)
       ∧ (score r = 50
          ↔ ∃ pre post, toLowerCase " Unbiased." = pre +:+ "biased" +:+ post).
Proof.
  apply (biased_verdict_ignores_trim (chat_reply " Unbiased.")
           (VArray [VObject [("index", VNumber 0);
                             ("message", VObject [("role", VString "assistant");
                                                  ("content", VString " Unbiased.")])]])
           (VObject [("index", VNumber 0);
                     ("message", VObject [("role", VString "assistant");
                                          ("content", VString " Unbiased.")])])
           (VObject [("role", VString "assistant"); ("content", VString " Unbiased.")])
           " Unbiased."); reflexivity.
Defined.

Example unbiased_answer_is_penalised :
  score <$> classify_response (chat_reply "Unbiased") = Normal 50.
Proof. reflexivity. Qed.

(** ** The synthesized score *)

Lemma handler_scores (w : World) (userQuery : string) (citedSources : list Source)
    (r : OverallResult) :
  handler w userQuery citedSources = Normal r →
  let q := score (queryFraming (metrics r)) in
  let n := score (networkAnalysis (metrics r)) in
  let e := score (simplifiedEEAT (metrics r)) in
  (q = 50 ∨ q = 100)
  ∧ n ∈ [100; 60; 40; 20; 0]
  ∧ 20 ≤ e ≤ 100
  ∧ overallScore r = (q + 5 * n + 4 * e + 5) / 10
  ∧ summary r = summarize (overallScore r) (metrics r).
Proof.
  intros H. apply handler_Normal in H as (na & ea & Hna & Hea & ->).
  cbn [metrics overallScore summary queryFraming networkAnalysis simplifiedEEAT].
  pose proof (analyzeQueryFraming_score w userQuery) as Hq.
  pose proof (analyzeNetwork_score_values w citedSources na Hna) as Hn.
  pose proof (analyzeNetwork_score w citedSources na Hna) as Hn'.
  pose proof (analyzeSimplifiedEEAT_score w citedSources ea Hea) as He.
  split_and!; [done | done | lia | lia | | done].
  by rewrite overall_of_scores.
Qed.

(** X11.  The binary64 evaluation of the weighted sum never changes the
    outcome: the [overallScore] of every response is the exact value of
    [q / 10 + n / 2 + 2 * e / 5], for the three scores in the response,
    rounded to the nearest integer with a tie going up, and it is at most
    half a point away from that value. *)
Theorem overallScore_is_exact_weighted_sum_rounded
    (w : World) (userQuery : string) (citedSources : list Source) :
  match handler w userQuery citedSources with
  | Normal r =>
      let weighted := score (queryFraming (metrics r))
                      + 5 * score (networkAnalysis (metrics r))
                      + 4 * score (simplifiedEEAT (metrics r)) in
      overallScore r = (weighted + 5) / 10
      ∧ 10 * overallScore r - 5 ≤ weighted
      ∧ weighted < 10 * overallScore r + 5
  | Throw => Exists (malformed w) citedSources
  end.
Proof.
  destruct (handler w userQuery citedSources) as [r|] eqn:H;
    [|by apply (handler_Throw w userQuery)].
  destruct (handler_scores w userQuery citedSources r H) as (_ & _ & _ & Ho & _).
  cbn zeta. rewrite Ho.
  set (weighted := score (queryFraming (metrics r))
                   + 5 * score (networkAnalysis (metrics r))
                   + 4 * score (simplifiedEEAT (metrics r))).
  pose proof (Z.mul_div_le (weighted + 5) 10).
  pose proof (Z.mul_succ_div_gt (weighted + 5) 10).
  lia.
Qed.

(** X12.  No response carries an [overallScore] below 13, and 13 is reached:
    a biased query (50), five or more domains on shared addresses (0) and only
    low-authority domains (20). *)
Theorem overallScore_at_least_13
    (w : World) (userQuery : string) (citedSources : list Source) :
  match handler w userQuery citedSources with
  | Normal r => 13 ≤ overallScore r ∧ overallScore r ≤ 100
  | Throw => Exists (malformed w) citedSources
  end
  ∧ overallScore <$> handler worst_world "why is X superior to Y" crowded_sources
    = Normal 13.
Proof.
  split; [|vm_compute; reflexivity].
  destruct (handler w userQuery citedSources) as [r|] eqn:H;
    [|by apply (handler_Throw w userQuery)].
  destruct (handler_scores w userQuery citedSources r H) as (Hq & Hn & He & Ho & _).
  rewrite Ho.
  assert (Hn0 : 0 ≤ score (networkAnalysis (metrics r)) ≤ 100).
  { set_unfold. lia. }
  split.
  - apply Z.div_le_lower_bound; lia.
  - apply Z.lt_succ_r, Z.div_lt_upper_bound; lia.
Qed.

Lemma summarize_low_iff (overall : Z) (results : Metrics) :
  summarize overall results = low_risk_text ↔ 85 ≤ overall.
Proof.
  unfold summarize.
  destruct (Z.ltb_spec overall 60); [|destruct (Z.ltb_spec overall 85)].
  - split; [|lia]. intros H'.
    apply (f_equal (starts_with "H")) in H'. cbv in H'. discriminate H'.
  - split; [discriminate | lia].
  - split; [lia | done].
Qed.

(** X13.  A response says [Low risk] exactly when its [overallScore] is at
    least 85, and that requires a clean network analysis: as soon as one
    address is shared the verdict is [Medium] or [High], whatever the other
    two analyzers return.  It also requires an authority score of at least
    62. *)
Theorem low_risk_requires_clean_network
    (w : World) (userQuery : string) (citedSources : list Source) :
  match handler w userQuery citedSources with
  | Normal r =>
      (summary r = low_risk_text ↔ 85 ≤ overallScore r)
      ∧ (summary r = low_risk_text →
         score (networkAnalysis (metrics r)) = 100
         ∧ 62 ≤ score (simplifiedEEAT (metrics r)))
  | Throw => Exists (malformed w) citedSources
  end.
Proof.
  destruct (handler w userQuery citedSources) as [r|] eqn:H;
    [|by apply (handler_Throw w userQuery)].
  destruct (handler_scores w userQuery citedSources r H) as (Hq & Hn & He & Ho & Hs).
  rewrite Hs, summarize_low_iff. split; [done|]. intros Hlow.
  rewrite Ho in Hlow.
  assert (Hsum : 845 ≤ score (queryFraming (metrics r))
                       + 5 * score (networkAnalysis (metrics r))
                       + 4 * score (simplifiedEEAT (metrics r))).
  { pose proof (Z.mul_div_le
                  (score (queryFraming (metrics r))
                   + 5 * score (networkAnalysis (metrics r))
                   + 4 * score (simplifiedEEAT (metrics r)) + 5) 10).
    lia. }
  set_unfold. lia.
Qed.

(** X14.  What each analyzer is worth in the overall score, over all the
    scores the analyzers can return: a biased query costs exactly 5 points,
    every 20 points of the network score exactly 10, every 5 points of the
    authority score exactly 2, and a single point of authority at most 1. *)
Theorem synthesize_marginal_effects (q n e : Z) :
  q = 50 ∨ q = 100 →
  (∃ k, 0 ≤ k ≤ 5 ∧ n = 20 * k) →
  0 ≤ e ≤ 100 →
  let overall q n e := synth_overallScore (synthesizeScore (results_of q n e)) in
  overall 50 n e + 5 = overall 100 n e
  ∧ (20 ≤ n → overall q (n - 20) e + 10 = overall q n e)
  ∧ (5 ≤ e → overall q n (e - 5) + 2 = overall q n e)
  ∧ (1 ≤ e → overall q n (e - 1) ≤ overall q n e ∧ overall q n e ≤ overall q n (e - 1) + 1).
Proof.
  intros Hq (k & Hk & ->) He overall.
  assert (Hov : ∀ q' k' e', (q' = 50 ∨ q' = 100) → 0 ≤ k' ≤ 5 → 0 ≤ e' ≤ 100 →
                  overall q' (20 * k') e' = (q' + 5 * (20 * k') + 4 * e' + 5) / 10).
  { intros q' k' e' Hq' Hk' He'. subst overall.
    change (Math_round (weighted_total q' (20 * k') e')
            = (q' + 5 * (20 * k') + 4 * e' + 5) / 10).
    apply Math_round_weighted_total; [done | by exists k' | done]. }
  split_and!.
  - rewrite !Hov by (auto; lia).
    replace (100 + 5 * (20 * k) + 4 * e + 5) with (50 + 5 * (20 * k) + 4 * e + 5 + 5 * 10)
      by lia.
    by rewrite Z.div_add by lia.
  - intros Hn. replace (20 * k - 20) with (20 * (k - 1)) by lia.
    rewrite !Hov by (auto; lia).
    replace (q + 5 * (20 * k) + 4 * e + 5)
      with (q + 5 * (20 * (k - 1)) + 4 * e + 5 + 10 * 10) by lia.
    by rewrite Z.div_add by lia.
  - intros He5. rewrite !Hov by (auto; lia).
    replace (q + 5 * (20 * k) + 4 * e + 5)
      with (q + 5 * (20 * k) + 4 * (e - 5) + 5 + 2 * 10) by lia.
    by rewrite Z.div_add by lia.
  - intros He1. rewrite !Hov by (auto; lia). split.
    + apply Z.div_le_mono; lia.
    + rewrite <- (Z.div_add (q + 5 * (20 * k) + 4 * (e - 1) + 5) 1 10); [|lia].
      apply Z.div_le_mono; lia.
Qed.

(** A biased query on two flagged domains with an authority score of 75. *)
Lemma synthesize_marginal_effects_witness :
  let overall q n e := synth_overallScore (synthesizeScore (results_of q n e)) in
  overall 50 60 75 + 5 = overall 100 60 75
  ∧ (20 ≤ 60 → overall 50 (60 - 20) 75 + 10 = overall 50 60 75)
  ∧ (5 ≤ 75 → overall 50 60 (75 - 5) + 2 = overall 50 60 75)
  ∧ (1 ≤ 75 → overall 50 60 (75 - 1) ≤ overall 50 60 75
              ∧ overall 50 60 75 ≤ overall 50 60 (75 - 1) + 1).
Proof.
  apply (synthesize_marginal_effects 50 60 75).
  - by left.
  - exists 3. lia.
  - lia.
Defined.

(** X15.  A [High risk] summary names at least one cause (the details of an
    analyzer that scored below 60) in every case but one: a biased query, a
    network score of 60 and an authority score of 60 or 61 give an overall
    score of 59 while neither analyzer is below 60, and the summary is the
    bare sentence.  That case is reached by the handler. *)
Theorem high_risk_without_cause_corner (results : Metrics) :
  score (queryFraming results) = 50 ∨ score (queryFraming results) = 100 →
  (∃ k, 0 ≤ k ≤ 5 ∧ score (networkAnalysis results) = 20 * k) →
  20 ≤ score (simplifiedEEAT results) ≤ 100 →
  let s := synthesizeScore results in
  (synth_overallScore s < 60 ∧ 60 ≤ score (networkAnalysis results)
     ∧ 60 ≤ score (simplifiedEEAT results)
   ↔ score (queryFraming results) = 50 ∧ score (networkAnalysis results) = 60
     ∧ 60 ≤ score (simplifiedEEAT results) ≤ 61)
  ∧ (synth_overallScore s < 60 → 60 ≤ score (networkAnalysis results) →
     60 ≤ score (simplifiedEEAT results) → synth_summary s = high_risk_text)
  ∧ handler corner_world "why is X superior to Y" corner_sources
    = Normal
        {| overallScore := 59;
           summary := high_risk_text;
           alternativeAnswer := alternative_answer_text;
           metrics :=
             {| queryFraming :=
                  {| score := 50; isBiased := Some true;
                     details := "Query was classified as: biased" |};
                networkAnalysis :=
                  {| score := 60; isBiased := None;
                     details := "2 domains may be part of a shared network." |};
                simplifiedEEAT :=
                  {| score := 60; isBiased := None;
                     details := "0 domains have very low authority." |} |} |}.
Proof.
  intros Hq Hn He s. subst s. cbn [synthesizeScore synth_overallScore synth_summary].
  rewrite (overall_of_scores results Hq Hn He).
  destruct Hn as (k & Hk & Hn). rewrite Hn in *.
  set (e := score (simplifiedEEAT results)) in *.
  set (q := score (queryFraming results)) in *.
  assert (Hdiv : (q + 5 * (20 * k) + 4 * e + 5) / 10 < 60
                 ↔ q + 5 * (20 * k) + 4 * e + 5 < 600).
  { split; intros Hlt.
    - pose proof (Z.mul_succ_div_gt (q + 5 * (20 * k) + 4 * e + 5) 10). lia.
    - apply Z.div_lt_upper_bound; lia. }
  split_and!.
  - rewrite Hdiv. lia.
  - intros Hlow Hn60 He60. unfold summarize.
    destruct (Z.ltb_spec ((q + 5 * (20 * k) + 4 * e + 5) / 10) 60); [|lia].
    rewrite Hn. destruct (Z.ltb_spec (20 * k) 60); [lia|].
    fold e. by destruct (Z.ltb_spec e 60); [lia|].
  - vm_compute. reflexivity.
Qed.

(** The corner itself. *)
Lemma high_risk_without_cause_corner_witness :
  let results := results_of 50 60 61 in
  let s := synthesizeScore results in
  (synth_overallScore s < 60 ∧ 60 ≤ score (networkAnalysis results)
     ∧ 60 ≤ score (simplifiedEEAT results)
   ↔ score (queryFraming results) = 50 ∧ score (networkAnalysis results) = 60
     ∧ 60 ≤ score (simplifiedEEAT results) ≤ 61)
  ∧ (synth_overallScore s < 60 → 60 ≤ score (networkAnalysis results) →
     60 ≤ score (simplifiedEEAT results) → synth_summary s = high_risk_text)
  ∧ overallScore <$> handler corner_world "why is X superior to Y" corner_sources
    = Normal 59.
Proof.
  intros results s.
  destruct (high_risk_without_cause_corner results) as (H1 & H2 & H3).
  - by left.
  - exists 3. split; [lia | reflexivity].
  - simpl. lia.
  - split; [exact H1|]. split; [exact H2|]. by rewrite H3.
Defined.
